(** * segmentation/network.py: padding and baseline extraction

    A shallow embedding of the pure parts of [segmentation/network.py]:
    - [pad] / [unpad], the helpers wrapped around every forward pass;
    - the class [Cc_with_type] and the closures [calculate_distance_matrix]
      and [normalize_connected_components] of [extract_baselines], together
      with the glue code of [extract_baselines] between them.

    Conventions.
    - A Python exception is a value [Raise e] of the type [result].
    - numpy index arrays (the output of [np.where]) are lists of [Z]; image
      coordinates are far below 2^53, so int64 arithmetic does not wrap and
      the conversions to float64 are exact.
    - Python floats only occur as the constants [1/5*length],
      [vertical_distance/2], [vertical_distance*2/3] and in
      [np.floor(np.mean(value) + 0.5)]; they are modelled by rationals (see
      the remarks at [tolerance] and [np_mean]).
    - [scipy.ndimage.label] and [sklearn.cluster.DBSCAN] are third-party
      code: the labelled components are an input of the model and the
      clusterer is a section variable. *)

From Stdlib Require Import ZArith QArith Qround Lia.
From stdpp Require Import base option list sorting gmap strings.

Local Open Scope Z_scope.

(** ** Exceptions *)

Inductive exn : Type :=
| ValueError
| TypeError
| IndexError
| ZeroDivisionError.

Inductive result (A : Type) : Type :=
| OK (a : A)
| Raise (e : exn).

Arguments OK {A} a.
Arguments Raise {A} e.

#[global] Instance result_ret : MRet result := @OK.
#[global] Instance result_bind : MBind result := fun A B f m =>
  match m with
  | OK a => f a
  | Raise e => Raise e
  end.
#[global] Instance result_fmap : FMap result := fun A B f m =>
  match m with
  | OK a => OK (f a)
  | Raise e => Raise e
  end.

(** [a[i]] on a Python list or a 1-d array, for [i >= 0]. *)
Definition getitem {A} (a : list A) (i : nat) : result A :=
  match a !! i with
  | Some v => OK v
  | None => Raise IndexError
  end.

(** ** [pad] and [unpad] *)

Section Tensor.
Context {A : Type} (zero : A).

(** A 4-dimensional tensor: its [shape] and its entries, batch first. *)
Record tensor : Type := Tensor {
  dim0 : nat;
  dim1 : nat;
  dim2 : nat;
  dim3 : nat;
  data : list (list (list (list A)))
}.

Definition plane_wf (h w : nat) (p : list (list A)) : Prop :=
  length p = h ∧ Forall (fun row => length row = w) p.

Definition tensor_wf (t : tensor) : Prop :=
  length (data t) = dim0 t ∧
  Forall (fun b => length b = dim1 t ∧ Forall (plane_wf (dim2 t) (dim3 t)) b)
         (data t).

(** [torch.nn.functional.pad(input, pad=[l, r, t, b])] in its default
    mode: [l], [r] zeros before and after the last dimension, [t], [b]
    rows of zeros before and after the dimension before it. *)
Definition F_pad (t : tensor) (l r top bot : nat) : tensor :=
  let w' := (l + dim3 t + r)%nat in
  let zrow := replicate w' zero in
  let pad_row (row : list A) := replicate l zero ++ row ++ replicate r zero in
  let pad_plane (p : list (list A)) :=
    replicate top zrow ++ (pad_row <$> p) ++ replicate bot zrow in
  {| dim0 := dim0 t; dim1 := dim1 t;
     dim2 := (top + dim2 t + bot)%nat; dim3 := w';
     data := (fun b : list (list (list A)) => pad_plane <$> b) <$> data t |}.

Definition pad (t : tensor) (factor : nat) : result tensor :=
  if (factor =? 0)%nat then Raise ZeroDivisionError else
  let h_dif := (factor - (dim2 t `mod` factor))%nat in
  let x_dif := (factor - (dim3 t `mod` factor))%nat in
  let x_dif := if negb (factor =? x_dif)%nat then x_dif else 0%nat in
  let h_dif := if negb (factor =? h_dif)%nat then h_dif else 0%nat in
  if negb (h_dif =? 0)%nat || negb (x_dif =? 0)%nat
  then OK (F_pad t 0 x_dif 0 h_dif)
  else OK t.

(** [tensor[:, :, :o_shape[0], :o_shape[1]]] *)
Definition unpad (t : tensor) (o_shape : nat * nat) : tensor :=
  {| dim0 := dim0 t; dim1 := dim1 t;
     dim2 := dim2 t `min` o_shape.1; dim3 := dim3 t `min` o_shape.2;
     data := (fun b : list (list (list A)) =>
               (fun p : list (list A) => take o_shape.2 <$> take o_shape.1 p) <$> b)
             <$> data t |}.

End Tensor.

Arguments tensor A : clear implicits.

(** ** Connected components and their descriptors *)

(** The value of [np.where(labelled == x)] on a 2-d array: the row indices
    and the column indices of the pixels, two arrays of the same length, in
    row-major order. *)
Definition component : Type := list Z * list Z.

Definition aligned (c : component) : Prop := length c.1 = length c.2.

(** Python's [min] and [max] on a sequence. *)
Definition py_min (a : list Z) : result Z :=
  match a with
  | [] => Raise ValueError
  | v :: a' => OK (foldl Z.min v a')
  end.

Definition py_max (a : list Z) : result Z :=
  match a with
  | [] => Raise ValueError
  | v :: a' => OK (foldl Z.max v a')
  end.

(** [np.where(a == v)[0]]: the positions of [v] in [a], ascending. *)
Fixpoint where_from (k : nat) (a : list Z) (v : Z) : list nat :=
  match a with
  | [] => []
  | u :: a' =>
      if decide (u = v) then k :: where_from (S k) a' v
      else where_from (S k) a' v
  end.

Definition np_where_eq (a : list Z) (v : Z) : list nat := where_from 0 a v.

(** [a[idx]] for an index array [idx]. *)
Definition take_indices (a : list Z) (idx : list nat) : result (list Z) :=
  mapM (getitem a) idx.

Record Cc_with_type : Type := mkCc {
  cc : component;
  cc_left : Z * Z;
  cc_right : Z * Z;
  type : string
}.

(** [Cc_with_type.__init__] *)
Definition Cc_with_type_init (c : component) (ty : string) : result Cc_with_type :=
  mn ← py_min c.2;
  let index_min := np_where_eq c.2 mn in
  l0 ← take_indices c.1 index_min ≫= (fun a => getitem a 0%nat);
  l1 ← take_indices c.2 index_min ≫= (fun a => getitem a 0%nat);
  mx ← py_max c.2;
  let index_max := np_where_eq c.2 mx in
  r0 ← take_indices c.1 index_max ≫= (fun a => getitem a 0%nat);
  r1 ← take_indices c.2 index_max ≫= (fun a => getitem a 0%nat);
  OK {| cc := c; cc_left := (l0, l1); cc_right := (r0, r1); type := ty |}.

(** [p] is the pixel at position [i] of [c], and no pixel before position
    [i] has the column of [p]. *)
Definition first_in_column (c : component) (i : nat) (p : Z * Z) : Prop :=
  c.1 !! i = Some p.1 ∧ c.2 !! i = Some p.2 ∧
  ∀ j, (j < i)%nat → c.2 !! j ≠ Some p.2.

(** ** The distance matrix *)

Definition Qltb (a b : Q) : bool := Qnum a * QDen b <? Qnum b * QDen a.

(** [v_distance].  In the source the three values are the floats
    [vertical_distance], [vertical_distance / 2] and
    [vertical_distance * 2 / 3], and the first threshold is the float
    [1 / 5 * length].  With [length = 50] the product [0.2 * 50] rounds to
    [10.0] exactly, [10 / 2] is [5.0], and the double nearest to [20/3]
    lies strictly between 6 and 7 like [20/3] itself; every comparison is
    against an integer, so the rationals decide them as the floats do. *)
Definition tolerance (distance length vertical_distance : Z) : Q :=
  if Qltb (inject_Z distance) (1 / 5 * inject_Z length)%Q
  then (inject_Z vertical_distance / 2)%Q
  else if distance <? length
  then (inject_Z vertical_distance * 2 / 3)%Q
  else inject_Z vertical_distance.

(** The closures [left] and [right] of the source ([left] and [right] are
    the constructors of [sumbool] here, hence the suffix). *)
Definition left_of (x y : Cc_with_type) : bool := (cc_left x).2 >? (cc_right y).2.
Definition right_of (x y : Cc_with_type) : bool := (cc_right x).2 <? (cc_left y).2.

Definition same_type (x y : Cc_with_type) : Z :=
  if String.eqb (type x) (type y) then 1 else 100.

(** The value of the variable [distance] when line 372 is reached. *)
Definition raw_distance (length : Z) (x y : Cc_with_type) : Z :=
  let vertical_distance := 10 in
  if left_of x y then
    let distance := (cc_left x).2 - (cc_right y).2 in
    let v_distance := tolerance distance length vertical_distance in
    if negb (Qltb (inject_Z (Z.abs ((cc_left x).1 - (cc_right y).1))) v_distance)
    then distance + Z.abs ((cc_left x).1 - (cc_right y).1) * 5
    else distance
  else if right_of x y then
    let distance := (cc_left y).2 - (cc_right x).2 in
    let v_distance := tolerance distance length vertical_distance in
    if negb (Qltb (inject_Z (Z.abs ((cc_left x).1 - (cc_right y).1))) v_distance)
    then
      if negb (Qltb (inject_Z (Z.abs ((cc_right x).1 - (cc_left y).1))) v_distance)
      then distance + Z.abs ((cc_left y).1 - (cc_right x).1) * 5
      else distance
    else distance
  else 99999.

(** The value stored in [distance_matrix[ind1, ind2]].  The test [x is y]
    is object identity; [calculate_distance_matrix] is only called on
    [all_ccs], whose elements are created one by one by the two list
    comprehensions of [extract_baselines], so two positions hold the same
    object exactly when they are the same position. *)
Definition cell (length : Z) (ind1 : nat) (x : Cc_with_type)
    (ind2 : nat) (y : Cc_with_type) : Z :=
  if (ind1 =? ind2)%nat then 0
  else raw_distance length x y * same_type x y.

Definition enumerate {A} (l : list A) : list (nat * A) := imap pair l.

(** [np.zeros((n, n))], then the two nested loops; every index used is in
    range, so the assignments never raise. *)
Definition calculate_distance_matrix (ccs : list Cc_with_type) (length : Z)
    : list (list Z) :=
  let n := Datatypes.length ccs in
  let distance_matrix := replicate n (replicate n 0) in
  foldl (fun m '(ind1, x) =>
           foldl (fun m '(ind2, y) =>
                    alter (<[ind2 := cell length ind1 x ind2 y]>) ind1 m)
                 m (enumerate ccs))
        distance_matrix (enumerate ccs).

(** [m[i, j]] *)
Definition entry (m : list (list Z)) (i j : nat) : option Z :=
  m !! i ≫= (fun row => row !! j).

Definition d_base (l r : Z * Z) : Cc_with_type :=
  mkCc ([], []) l r "baseline".
Definition d_border (l r : Z * Z) : Cc_with_type :=
  mkCc ([], []) l r "baseline_border".


(** ** [normalize_connected_components] *)

(** [cc_dict[x].append(y)] on a [defaultdict(list)] *)
Definition add_point (cc_dict : gmap Z (list Z)) (p : Z * Z) : gmap Z (list Z) :=
  let '(y, x) := p in
  <[x := default [] (cc_dict !! x) ++ [y]]> cc_dict.

(** [sorted(cc_dict.keys())] *)
Definition sorted_keys (cc_dict : gmap Z (list Z)) : list Z :=
  merge_sort Z.le (map_to_list cc_dict).*1.

Definition Zsum (value : list Z) : Z := foldr Z.add 0 value.

(** [np.mean(value)].  The source computes it in float64; for the row
    indices of an image the sum is exact, and the two roundings of the
    quotient and of [+ 0.5] are far smaller than the distance [1 / (2 n)]
    of [mean + 1/2] to the next integer it does not reach, so [np.floor]
    of the float equals the floor of the rational. *)
Definition np_mean (value : list Z) : Q :=
  (inject_Z (Zsum value) / inject_Z (Z.of_nat (length value)))%Q.

(** The body of the loop [for cc in point_list]. *)
Definition normalize_cc (cc : list (Z * Z)) : list (Z * Z) :=
  let cc_dict := foldl add_point ∅ cc in
  (fun key =>
     let value := default [] (cc_dict !! key) in
     (Qfloor (np_mean value + 1 / 2)%Q, key))
  <$> sorted_keys cc_dict.

Definition normalize (point_list : list (list (Z * Z))) : list (list (Z * Z)) :=
  normalize_cc <$> point_list.

Definition normalize_connected_components (cc_list : list (list (Z * Z)))
    : list (list (Z * Z)) :=
  normalize cc_list.

(** The rows of the pixels of [cc] in column [c], in the order of [cc]. *)
Definition rows_at (c : Z) (cc : list (Z * Z)) : list Z :=
  (filter (fun p => p.2 = c) cc).*1.

(** ** [extract_baselines] *)

(** [np.unique] *)
Definition np_unique (a : list Z) : list Z := merge_sort Z.le (remove_dups a).

(** [np.concatenate] of a list of 1-d arrays *)
Definition np_concatenate (arrays : list (list Z)) : result (list Z) :=
  match arrays with
  | [] => Raise ValueError
  | _ => OK (concat arrays)
  end.

(** [[Cc_with_type(x, ty) for x in ccs if len(x[0]) > 10]] *)
Definition make_descriptors (ty : string) (ccs : list component)
    : result (list Cc_with_type) :=
  mapM (fun x => Cc_with_type_init x ty)
       (filter (fun x : component => (10 < length x.1)%nat) ccs).

(** [all_ccs] *)
Definition all_ccs_of (baseline_ccs baseline_border_ccs : list component)
    : result (list Cc_with_type) :=
  b ← make_descriptors "baseline" baseline_ccs;
  bb ← make_descriptors "baseline_border" baseline_border_ccs;
  OK (b ++ bb).

(** The body of the loop [for x in np.unique(t.labels_)]. *)
Definition collect (all_ccs : list Cc_with_type) (labels : list Z) (x : Z)
    : result component :=
  let ind := np_where_eq labels x in
  line ← mapM (fun d => cc <$> getitem all_ccs d) ind;
  rows ← np_concatenate (fst <$> line);
  cols ← np_concatenate (snd <$> line);
  OK (rows, cols).

(** Line 394, [list(zip(x[1][0], x[1][1]))]: [x] is a pair of 1-d arrays,
    so [x[1][0]] and [x[1][1]] are integer scalars, and [zip] of a scalar
    raises [TypeError]. *)
Definition zip_line_394 (x : component) : result (list (Z * Z)) :=
  _ ← getitem x.2 0%nat;
  _ ← getitem x.2 1%nat;
  Raise TypeError.

Section Pipeline.
(** [DBSCAN(eps=50, min_samples=1, metric="precomputed").fit(matrix).labels_],
    or the exception that [fit] raises. *)
Variable DBSCAN_labels : list (list Z) → result (list Z).

(** [matrix] *)
Definition matrix_of (baseline_ccs baseline_border_ccs : list component)
    : result (list (list Z)) :=
  all_ccs ← all_ccs_of baseline_ccs baseline_border_ccs;
  OK (calculate_distance_matrix all_ccs 50).

(** [ccs] after the loop of lines 387-392 *)
Definition clusters_of (baseline_ccs baseline_border_ccs : list component)
    : result (list component) :=
  all_ccs ← all_ccs_of baseline_ccs baseline_border_ccs;
  labels ← DBSCAN_labels (calculate_distance_matrix all_ccs 50);
  mapM (collect all_ccs labels) (np_unique labels).

(** [extract_baselines], from the connected components found by
    [scipy.ndimage.label] in the two masks to the list [ccs] that line 418
    assigns.  The source draws that list and has no [return]; the debug
    image and the plots do not feed back into it. *)
Definition extract_baselines (baseline_ccs baseline_border_ccs : list component)
    : result (list (list (Z * Z))) :=
  ccs ← clusters_of baseline_ccs baseline_border_ccs;
  ccs ← mapM zip_line_394 ccs;
  OK (normalize_connected_components ccs).

End Pipeline.

(** ** Vocabulary of the statements *)

(** The left extreme of a descriptor is not to the right of its right
    extreme; every descriptor built by [Cc_with_type_init] is so. *)
Definition spans_ordered (d : Cc_with_type) : Prop :=
  (cc_left d).2 ≤ (cc_right d).2.

(** [x] starts after [y] ends, the offset between the facing ends (the
    left end of [x], the right end of [y]) is not below the tolerance, and
    the offset between the far ends is below it. *)
Definition one_sided_penalty (length : Z) (x y : Cc_with_type) : bool :=
  let v := tolerance ((cc_left x).2 - (cc_right y).2) length 10 in
  left_of x y
  && negb (Qltb (inject_Z (Z.abs ((cc_left x).1 - (cc_right y).1))) v)
  && Qltb (inject_Z (Z.abs ((cc_left y).1 - (cc_right x).1))) v.

(** The least integer offset that is not below [tolerance g 50 10]. *)
Definition tolerance_ceiling (g : Z) : Z :=
  if g <? 10 then 5 else if g <? 50 then 7 else 10.

(** Five components of eleven pixels each: a straight run in row 0, the
    same run in row 1, a straight run in row 5 to the right of them, a
    hook to the right whose leftmost pixel is in row 7 and whose rightmost
    pixel is in row 0, and a straight run in row 2 to the right. *)
Definition run_row0 : component :=
  ([0; 0; 0; 0; 0; 0; 0; 0; 0; 0; 0], [0; 1; 2; 3; 4; 5; 6; 7; 8; 9; 10]).
Definition run_row1 : component :=
  ([1; 1; 1; 1; 1; 1; 1; 1; 1; 1; 1], [0; 1; 2; 3; 4; 5; 6; 7; 8; 9; 10]).
Definition run_row5 : component :=
  ([5; 5; 5; 5; 5; 5; 5; 5; 5; 5; 5], [12; 13; 14; 15; 16; 17; 18; 19; 20; 21; 22]).
Definition hook : component :=
  ([0; 0; 1; 2; 3; 4; 5; 6; 7; 7; 7], [14; 15; 14; 14; 14; 14; 14; 14; 12; 13; 14]).

Definition run_row2 : component :=
  ([2; 2; 2; 2; 2; 2; 2; 2; 2; 2; 2], [12; 13; 14; 15; 16; 17; 18; 19; 20; 21; 22]).

(** A component of three pixels. *)
Definition speck : component := ([3; 3; 4], [7; 8; 8]).

(** A clusterer that puts every descriptor into cluster 0. *)
Definition one_cluster (matrix : list (list Z)) : result (list Z) :=
  OK (replicate (length matrix) 0).

(** The descriptors of these components, as [Cc_with_type_init] builds
    them. *)
Definition d_run0 : Cc_with_type := mkCc run_row0 (0, 0) (0, 10) "baseline".
Definition d_run2 : Cc_with_type := mkCc run_row2 (2, 12) (2, 22) "baseline".
Definition d_run5 : Cc_with_type := mkCc run_row5 (5, 12) (5, 22) "baseline".
Definition d_hook : Cc_with_type := mkCc hook (7, 12) (0, 15) "baseline".
Definition d_border1 : Cc_with_type := mkCc run_row1 (1, 0) (1, 10) "baseline_border".

(** The pixels of a small cluster, as (row, column) pairs. *)
Definition cluster_ex : list (Z * Z) :=
  [(3, 5); (4, 5); (10, 2); (7, 9); (8, 9); (8, 9); (0, 2)].

(** A tensor of shape (1, 1, 2, 3). *)
Definition t_2x3 : tensor Z :=
  {| dim0 := 1; dim1 := 1; dim2 := 2; dim3 := 3;
     data := [[[[1; 2; 3]; [4; 5; 6]]]] |}.

(** ** More vocabulary: the members of a cluster *)

(** The descriptors whose label is [x], in the order of [all_ccs]. *)
Definition members (all_ccs : list Cc_with_type) (labels : list Z) (x : Z)
    : list Cc_with_type :=
  (filter (fun p : Z * Cc_with_type => p.1 = x) (zip labels all_ccs)).*2.

(** The row arrays and the column arrays of a group of descriptors, each
    concatenated in the order of the group. *)
Definition merge_components (g : list Cc_with_type) : component :=
  (concat ((fun d => (cc d).1) <$> g), concat ((fun d => (cc d).2) <$> g)).

(** A component moved by [dr] rows and [dc] columns. *)
Definition shift_component (dr dc : Z) (c : component) : component :=
  ((fun r => r + dr) <$> c.1, (fun c => c + dc) <$> c.2).

(** A descriptor moved by [dr] rows and [dc] columns. *)
Definition shift_descriptor (dr dc : Z) (d : Cc_with_type) : Cc_with_type :=
  {| cc := ((fun r => r + dr) <$> (cc d).1, (fun c => c + dc) <$> (cc d).2);
     cc_left := ((cc_left d).1 + dr, (cc_left d).2 + dc);
     cc_right := ((cc_right d).1 + dr, (cc_right d).2 + dc);
     type := type d |}.

(** The rows of two pixels of one column. *)
Definition rows_3_4 : list Z := [3; 4].

(** ** [plot_list] *)

(** An access to the array of axes that [plt.subplots] returns:
    [ax[row, ind]] or [ax[ind]]. *)
Inductive ax_access : Type :=
| Ax2 (row ind : nat)
| Ax1 (ind : nat).

Definition images_per_row : nat := 4.

(** [int(np.ceil(len(lsit) / images_per_row))] *)
Definition plot_list_rows (n : nat) : nat :=
  Z.to_nat (Qceiling (inject_Z (Z.of_nat n) / inject_Z (Z.of_nat images_per_row))).

(** The body of the loop [for x in lsit], on the variables [ind] and [row]
    and the accesses made so far. *)
Definition plot_list_step {A} (rows : nat) (st : nat * nat * list ax_access) (x : A)
    : nat * nat * list ax_access :=
  let '(ind, row, trace) := st in
  let trace := trace ++ [if (1 <? rows)%nat then Ax2 row ind else Ax1 ind] in
  let ind := (ind + 1)%nat in
  if (ind =? images_per_row)%nat then (0%nat, (row + 1)%nat, trace)
  else (ind, row, trace).

(** The accesses to [ax] that [plot_list] makes, in order. *)
Definition plot_list {A} (lsit : list A) : list ax_access :=
  let rows := plot_list_rows (length lsit) in
  (foldl (plot_list_step rows) (0%nat, 0%nat, []) lsit).2.

(** ** The loop of [train] *)







(** ** The loop of [Network.train] *)

Section Training.
(** The accuracy that [test] returns after the training of an epoch. *)
Variable test_accuracy : nat → Q.

(** [highest_accuracy] and the epochs after which [torch.save] ran. *)
Definition Network_train_epoch (output_path : bool) (st : Q * list nat) (epoch : nat)
    : Q * list nat :=
  let accuracy := test_accuracy epoch in
  if output_path then
    if Qltb st.1 accuracy then (accuracy, st.2 ++ [epoch]) else st
  else st.

(** [for epoch in range(1, self.settings.EPOCHS)] *)
Definition Network_train (EPOCHS : nat) (output_path : bool) : Q * list nat :=
  foldl (Network_train_epoch output_path) (0%Q, []) (seq 1 (EPOCHS - 1)).

(** What holds of [highest_accuracy] and of the saved epochs after the
    epochs [1 .. m]. *)
Definition checkpoint_inv (m : nat) (st : Q * list nat) : Prop :=
  match last st.2 with
  | None =>
      st = (0%Q, []) ∧ ∀ e, (1 ≤ e ≤ m)%nat → (test_accuracy e <= 0)%Q
  | Some e =>
      (1 ≤ e ≤ m)%nat ∧ st.1 = test_accuracy e ∧ (0 < test_accuracy e)%Q ∧
      (∀ e', (1 ≤ e' ≤ m)%nat → (test_accuracy e' <= test_accuracy e)%Q) ∧
      (∀ e', (1 ≤ e' < e)%nat → (test_accuracy e' < test_accuracy e)%Q)
  end.

End Training.

(** ** Inputs of the examples *)

(** Labels for three descriptors: two clusters. *)
Definition labels_ex : list Z := [0; 1; 0].

(** A cluster with one pixel per column. *)
Definition thin_curve : list (Z * Z) := [(3, 5); (7, 2); (4, 6)].

(** Accuracies that grow with the epoch, and then fall back. *)
Definition accuracy_ex (epoch : nat) : Q :=
  if (epoch <? 3)%nat then inject_Z (Z.of_nat epoch) else 1%Q.
(** * Verification *)

(** ** [pad] and [unpad] *)

Section TensorFacts.
Context {A : Type} (zero : A).

Lemma unpad_id (t : tensor A) :
  tensor_wf t → unpad t (dim2 t, dim3 t) = t.
Proof.
  destruct t as [n c h w d]; unfold tensor_wf, unpad; simpl.
  intros [_ Hd]. f_equal; try lia.
  induction Hd as [|b d [_ Hb] _ IH]; [done|].
  rewrite fmap_cons, IH. f_equal.
  clear -Hb. induction Hb as [|p b [Hh Hw] _ IH]; [done|].
  rewrite fmap_cons, IH. f_equal.
  rewrite firstn_all2 by lia.
  clear -Hw. induction Hw as [|row p Hr _ IH]; [done|].
  rewrite fmap_cons, IH. f_equal. apply firstn_all2. lia.
Qed.

Lemma unpad_F_pad (t : tensor A) (r bot : nat) :
  tensor_wf t → unpad (F_pad zero t 0 r 0 bot) (dim2 t, dim3 t) = t.
Proof.
  destruct t as [n c h w d]; unfold tensor_wf, unpad, F_pad; simpl.
  intros [_ Hd]. f_equal; try lia.
  induction Hd as [|b d [_ Hb] _ IH]; [done|].
  rewrite !fmap_cons, IH. f_equal.
  clear -Hb. induction Hb as [|p b [Hh Hw] _ IH]; [done|].
  rewrite !fmap_cons, IH. f_equal.
  rewrite take_app_le by (rewrite length_fmap; lia).
  rewrite firstn_all2 by (rewrite length_fmap; lia).
  clear -Hw. induction Hw as [|row p Hr _ IH]; [done|].
  rewrite !fmap_cons, IH. f_equal.
  rewrite take_app_le by lia. apply firstn_all2. lia.
Qed.

Lemma pad_unpad_factor (t : tensor A) (factor : nat) :
  factor ≠ 0%nat → tensor_wf t →
  ∃ p, pad zero t factor = OK p ∧ unpad p (dim2 t, dim3 t) = t.
Proof.
  intros Hf Hwf. unfold pad.
  destruct (Nat.eqb_spec factor 0) as [|_]; [done|].
  match goal with |- context [if ?b then OK ?u else OK t] =>
    destruct b; [exists u | exists t] end.
  - split; [done|]. by apply unpad_F_pad.
  - split; [done|]. by apply unpad_id.
Qed.

(** C9. For every (rectangular) 4-dimensional tensor [t],
    [unpad(pad(t, 32), s)] is [t] again, where [s] is the pair of the
    last two dimension sizes of [t]; in particular [pad(t, 32)] does not
    raise. *)
Theorem pad_unpad_roundtrip (t : tensor A) :
  tensor_wf t →
  ∃ p, pad zero t 32 = OK p ∧ unpad p (dim2 t, dim3 t) = t.
Proof. apply pad_unpad_factor. lia. Qed.

End TensorFacts.

(** ** Descriptors *)

Example Cc_with_type_init_ex :
  Cc_with_type_init ([0; 0; 1; 1; 2], [3; 4; 2; 4; 2]) "baseline"
  = OK (mkCc ([0; 0; 1; 1; 2], [3; 4; 2; 4; 2]) (1, 2) (0, 4) "baseline").
Proof. reflexivity. Qed.

Example Cc_with_type_init_empty :
  Cc_with_type_init ([], []) "baseline" = Raise ValueError.
Proof. reflexivity. Qed.

(** *** Facts about [min], [max], [np.where] and index arrays *)

Lemma foldl_min_spec (a : list Z) (v : Z) :
  (foldl Z.min v a = v ∨ foldl Z.min v a ∈ a) ∧
  foldl Z.min v a ≤ v ∧ (∀ x, x ∈ a → foldl Z.min v a ≤ x).
Proof.
  revert v. induction a as [|u a IH]; intros v; simpl.
  - split; [by left|]. split; [lia|]. intros x Hx. by apply elem_of_nil in Hx.
  - destruct (IH (Z.min v u)) as (Hin & Hle & Hall). repeat split.
    + destruct Hin as [Heq|Hin].
      * rewrite Heq. destruct (Z.min_spec v u) as [[_ ->]|[_ ->]];
          [by left | right; constructor].
      * right. by constructor.
    + lia.
    + intros x Hx. apply elem_of_cons in Hx as [->|Hx]; [lia | by apply Hall].
Qed.

Lemma foldl_max_spec (a : list Z) (v : Z) :
  (foldl Z.max v a = v ∨ foldl Z.max v a ∈ a) ∧
  v ≤ foldl Z.max v a ∧ (∀ x, x ∈ a → x ≤ foldl Z.max v a).
Proof.
  revert v. induction a as [|u a IH]; intros v; simpl.
  - split; [by left|]. split; [lia|]. intros x Hx. by apply elem_of_nil in Hx.
  - destruct (IH (Z.max v u)) as (Hin & Hle & Hall). repeat split.
    + destruct Hin as [Heq|Hin].
      * rewrite Heq. destruct (Z.max_spec v u) as [[_ ->]|[_ ->]];
          [right; constructor | by left].
      * right. by constructor.
    + lia.
    + intros x Hx. apply elem_of_cons in Hx as [->|Hx]; [lia | by apply Hall].
Qed.

Lemma py_min_spec (a : list Z) :
  a ≠ [] → ∃ m, py_min a = OK m ∧ m ∈ a ∧ ∀ x, x ∈ a → m ≤ x.
Proof.
  destruct a as [|v a]; [done|]. intros _. exists (foldl Z.min v a).
  destruct (foldl_min_spec a v) as (Hin & Hle & Hall).
  split; [done|]. split.
  - destruct Hin as [->|Hin]; [constructor | by constructor].
  - intros x Hx. apply elem_of_cons in Hx as [->|Hx]; [done | by apply Hall].
Qed.

Lemma py_max_spec (a : list Z) :
  a ≠ [] → ∃ m, py_max a = OK m ∧ m ∈ a ∧ ∀ x, x ∈ a → x ≤ m.
Proof.
  destruct a as [|v a]; [done|]. intros _. exists (foldl Z.max v a).
  destruct (foldl_max_spec a v) as (Hin & Hle & Hall).
  split; [done|]. split.
  - destruct Hin as [->|Hin]; [constructor | by constructor].
  - intros x Hx. apply elem_of_cons in Hx as [->|Hx]; [done | by apply Hall].
Qed.

Lemma where_from_bound (k : nat) (a : list Z) (v : Z) :
  Forall (fun i => (k ≤ i < k + length a)%nat) (where_from k a v).
Proof.
  revert k. induction a as [|u a IH]; intros k; simpl; [constructor|].
  assert (Forall (fun i => (k ≤ i < k + S (length a))%nat) (where_from (S k) a v)).
  { eapply Forall_impl; [apply IH|]. simpl. intros; lia. }
  case_decide; [constructor; [lia|done] | done].
Qed.

(** The first entry of [np.where(a == v)[0]] is the first position of [v]. *)
Lemma where_from_head (k : nat) (a : list Z) (v : Z) :
  v ∈ a →
  ∃ j rest, where_from k a v = (k + j)%nat :: rest ∧ a !! j = Some v ∧
            ∀ j', (j' < j)%nat → a !! j' ≠ Some v.
Proof.
  revert k. induction a as [|u a IH]; intros k Hin.
  - by apply elem_of_nil in Hin.
  - simpl. case_decide as Hu.
    + subst u. exists 0%nat, (where_from (S k) a v).
      split; [f_equal; lia|]. split; [done|]. intros; lia.
    + apply elem_of_cons in Hin as [->|Hin]; [done|].
      destruct (IH (S k) Hin) as (j & rest & Hw & Hj & Hfirst).
      exists (S j), rest. split; [rewrite Hw; f_equal; lia|]. split; [done|].
      intros [|j'] Hlt; simpl; [congruence | apply Hfirst; lia].
Qed.

Lemma getitem_lookup {A} (a : list A) (i : nat) (v : A) :
  a !! i = Some v → getitem a i = OK v.
Proof. unfold getitem. by intros ->. Qed.

Lemma take_indices_total (a : list Z) (idx : list nat) :
  Forall (fun i => (i < length a)%nat) idx → ∃ vs, take_indices a idx = OK vs.
Proof.
  unfold take_indices. induction 1 as [|i idx Hi _ [vs IH]].
  - by exists [].
  - apply lookup_lt_is_Some_2 in Hi as [v Hv]. exists (v :: vs).
    cbn [mapM]. by rewrite (getitem_lookup _ _ _ Hv), IH.
Qed.

Lemma take_indices_cons (a : list Z) (i : nat) (idx : list nat) (v : Z) :
  a !! i = Some v → Forall (fun i => (i < length a)%nat) idx →
  ∃ vs, take_indices a (i :: idx) = OK (v :: vs).
Proof.
  intros Hi Hidx. destruct (take_indices_total a idx Hidx) as [vs Hvs].
  exists vs. unfold take_indices in *. cbn [mapM].
  by rewrite (getitem_lookup _ _ _ Hi), Hvs.
Qed.

(** [a[np.where(cols == v)[0]][0]] is the entry of [a] at the first
    position of [v] in [cols]. *)
Lemma first_of_where (a cols : list Z) (v : Z) :
  length a = length cols → v ∈ cols →
  ∃ i r, take_indices a (np_where_eq cols v) ≫= (fun b => getitem b 0%nat) = OK r ∧
         a !! i = Some r ∧ cols !! i = Some v ∧
         ∀ j, (j < i)%nat → cols !! j ≠ Some v.
Proof.
  intros Hlen Hin. unfold np_where_eq.
  pose proof (where_from_bound 0 cols v) as Hb.
  destruct (where_from_head 0 cols v Hin) as (i & rest & Hw & Hi & Hfirst).
  simpl in Hw. rewrite Hw in *. apply Forall_cons in Hb as [Hbi Hb].
  destruct (lookup_lt_is_Some_2 a i) as [r Hr]; [lia|].
  destruct (take_indices_cons a i rest r Hr) as [vs Hvs].
  { eapply Forall_impl; [exact Hb|]. simpl. intros; lia. }
  exists i, r. rewrite Hvs. done.
Qed.

Lemma Cc_with_type_init_spec (c : component) (ty : string) :
  aligned c → c.2 ≠ [] →
  ∃ d il ir, Cc_with_type_init c ty = OK d ∧ cc d = c ∧ type d = ty ∧
    first_in_column c il (cc_left d) ∧ (∀ x, x ∈ c.2 → (cc_left d).2 ≤ x) ∧
    first_in_column c ir (cc_right d) ∧ (∀ x, x ∈ c.2 → x ≤ (cc_right d).2).
Proof.
  destruct c as [rows cols]. unfold aligned, first_in_column. simpl.
  intros Hlen Hne.
  destruct (py_min_spec cols Hne) as (mn & Hmn & Hmn_in & Hmn_le).
  destruct (py_max_spec cols Hne) as (mx & Hmx & Hmx_in & Hmx_le).
  destruct (first_of_where rows cols mn Hlen Hmn_in) as (il & l0 & El0 & Hl0 & Hlc & Hlf).
  destruct (first_of_where cols cols mn eq_refl Hmn_in) as (il' & l1 & El1 & Hl1 & Hlc' & Hlf').
  destruct (first_of_where rows cols mx Hlen Hmx_in) as (ir & r0 & Er0 & Hr0 & Hrc & Hrf).
  destruct (first_of_where cols cols mx eq_refl Hmx_in) as (ir' & r1 & Er1 & Hr1 & Hrc' & Hrf').
  assert (il' = il) as ->.
  { destruct (Nat.lt_trichotomy il' il) as [?|[?|?]]; [|done|];
      [by destruct (Hlf il') | by destruct (Hlf' il)]. }
  assert (ir' = ir) as ->.
  { destruct (Nat.lt_trichotomy ir' ir) as [?|[?|?]]; [|done|];
      [by destruct (Hrf ir') | by destruct (Hrf' ir)]. }
  assert (l1 = mn) as -> by congruence.
  assert (r1 = mx) as -> by congruence.
  eexists _, il, ir. unfold Cc_with_type_init. simpl.
  rewrite Hmn. simpl. rewrite El0. simpl. rewrite El1. simpl.
  rewrite Hmx. simpl. rewrite Er0. simpl. rewrite Er1. simpl.
  split; [reflexivity|]. simpl. done.
Qed.

Lemma StronglySorted_lookup_le (l : list Z) (i j : nat) (a b : Z) :
  StronglySorted Z.le l → (i ≤ j)%nat → l !! i = Some a → l !! j = Some b → a ≤ b.
Proof.
  intros Hs. revert i j. induction Hs as [|x l Hs IH Hx]; intros i j Hij Hi Hj.
  - by rewrite lookup_nil in Hi.
  - destruct i as [|i], j as [|j]; simpl in *; try lia.
    + by simplify_eq.
    + simplify_eq. eapply Forall_forall in Hx; [exact Hx|].
      eapply list_elem_of_lookup_2; eauto.
    + eapply IH; [|done..]. lia.
Qed.

(** C8. For every non-empty component the constructor succeeds, and
    [cc_left] is the first pixel, in array order, whose column is the minimum
    column of the component, [cc_right] the first pixel whose column is the
    maximum column.  [np.where] lists pixels in row-major order, so the rows
    are non-decreasing along the array, and then the chosen pixel is the one
    with the least row among the pixels of its column. *)
Theorem Cc_with_type_init_extremes (c : component) (ty : string) :
  aligned c → c.2 ≠ [] →
  ∃ d il ir, Cc_with_type_init c ty = OK d ∧
    first_in_column c il (cc_left d) ∧ (∀ x, x ∈ c.2 → (cc_left d).2 ≤ x) ∧
    first_in_column c ir (cc_right d) ∧ (∀ x, x ∈ c.2 → x ≤ (cc_right d).2) ∧
    (StronglySorted Z.le c.1 →
     ∀ j r, c.1 !! j = Some r →
       (c.2 !! j = Some (cc_left d).2 → (cc_left d).1 ≤ r) ∧
       (c.2 !! j = Some (cc_right d).2 → (cc_right d).1 ≤ r)).
Proof.
  intros Hal Hne.
  destruct (Cc_with_type_init_spec c ty Hal Hne)
    as (d & il & ir & Hd & _ & _ & Hl & Hmin & Hr & Hmax).
  exists d, il, ir. repeat (split; [done|]).
  intros Hs j r Hj. split; intros Hc.
  - destruct Hl as (Hl0 & _ & Hfirst).
    eapply (StronglySorted_lookup_le c.1 il j); [done| |done..].
    destruct (Nat.le_gt_cases il j) as [|Hlt]; [done|].
    by destruct (Hfirst j Hlt).
  - destruct Hr as (Hr0 & _ & Hfirst).
    eapply (StronglySorted_lookup_le c.1 ir j); [done| |done..].
    destruct (Nat.le_gt_cases ir j) as [|Hlt]; [done|].
    by destruct (Hfirst j Hlt).
Qed.

(** ** The distance matrix *)

Lemma Qltb_lt (a b : Q) : Qltb a b = true ↔ (a < b)%Q.
Proof. unfold Qltb, Qlt. apply Z.ltb_lt. Qed.

Lemma Qltb_inject_Z (a b : Z) : Qltb (inject_Z a) (inject_Z b) = (a <? b).
Proof. unfold Qltb. simpl. by rewrite !Z.mul_1_r. Qed.

Example matrix_ex :
  calculate_distance_matrix
    [d_base (10, 0) (10, 9); d_base (12, 20) (12, 29); d_border (11, 5) (11, 25)] 50
  = [[0; 11; 9999900]; [11; 0; 9999900]; [9999900; 9999900; 0]].
Proof. vm_compute. reflexivity. Qed.

(** *** The two loops fill every cell *)

Lemma enumerate_snoc {A} (l : list A) (x : A) :
  enumerate (l ++ [x]) = enumerate l ++ [(Datatypes.length l, x)].
Proof. unfold enumerate. rewrite imap_app. simpl. by rewrite Nat.add_0_r. Qed.

(** A loop [for i, x in enumerate(l): m[i] = h i x m[i]]. *)
Lemma for_enumerate_alter {A V} (h : nat → A → V → V) (l : list A) (m : list V) (i : nat) :
  foldl (fun m '(k, x) => alter (h k x) k m) m (enumerate l) !! i
  = match l !! i with
    | Some x => h i x <$> m !! i
    | None => m !! i
    end.
Proof.
  induction l as [|x l IH] using rev_ind; [done|].
  rewrite enumerate_snoc, foldl_app. simpl.
  rewrite list_lookup_alter. case_decide as Hi.
  - subst i. rewrite IH, lookup_ge_None_2 by lia.
    by rewrite lookup_app_r, Nat.sub_diag by lia.
  - rewrite IH. destruct (decide (i < Datatypes.length l)%nat).
    + by rewrite lookup_app_l by lia.
    + rewrite (lookup_ge_None_2 (l ++ [x])) by (rewrite length_app; simpl; lia).
      by rewrite (lookup_ge_None_2 l) by lia.
Qed.

(** A loop that only writes into row [i] is one update of row [i]. *)
Lemma for_alter_row {B V} (f : B → V → V) (ps : list B) (m : list V) (i : nat) :
  foldl (fun m p => alter (f p) i m) m ps
  = alter (fun row => foldl (fun r p => f p r) row ps) i m.
Proof.
  revert m. induction ps as [|p ps IH]; intros m; simpl.
  - by rewrite list_alter_id.
  - by rewrite IH, list_alter_alter_eq.
Qed.

Lemma foldl_ext_fun {A B} (f g : A → B → A) (l : list B) (a : A) :
  (∀ a b, f a b = g a b) → foldl f a l = foldl g a l.
Proof. intros H. revert a. induction l as [|b l IH]; intros a; simpl; [done|]. by rewrite H, IH. Qed.

Lemma calculate_distance_matrix_row (ccs : list Cc_with_type) (length : Z) (i : nat) :
  calculate_distance_matrix ccs length !! i
  = (fun x => imap (cell length i x) ccs) <$> ccs !! i.
Proof.
  unfold calculate_distance_matrix.
  set (n := Datatypes.length ccs).
  set (fill := fun (k : nat) (x : Cc_with_type) (row : list Z) =>
         foldl (fun r '(ind2, y) => alter (fun _ => cell length k x ind2 y) ind2 r)
               row (enumerate ccs)).
  rewrite (foldl_ext_fun _ (fun m '(k, x) => alter (fill k x) k m)).
  2:{ intros m [k x]. unfold fill.
      rewrite (foldl_ext_fun _
        (fun m p => alter ((fun p => <[p.1 := cell length k x p.1 p.2]>) p) k m)).
      2:{ by intros ? []. }
      rewrite for_alter_row. apply list_alter_ext; [|done]. intros row _.
      apply foldl_ext_fun. intros r [j y]. simpl. apply list_insert_alter. }
  rewrite for_enumerate_alter.
  destruct (ccs !! i) as [x|] eqn:Hx; simpl.
  - rewrite lookup_replicate_2 by (by eapply lookup_lt_Some). simpl. f_equal.
    apply list_eq. intros j. unfold fill.
    rewrite for_enumerate_alter, list_lookup_imap.
    destruct (ccs !! j) as [y|] eqn:Hy; simpl.
    + by rewrite lookup_replicate_2 by (by eapply lookup_lt_Some).
    + apply lookup_replicate_None. by apply lookup_ge_None.
  - apply lookup_replicate_None. by apply lookup_ge_None.
Qed.

Lemma calculate_distance_matrix_entry (ccs : list Cc_with_type) (length : Z)
    (i j : nat) (x y : Cc_with_type) :
  ccs !! i = Some x → ccs !! j = Some y →
  entry (calculate_distance_matrix ccs length) i j = Some (cell length i x j y).
Proof.
  intros Hx Hy. unfold entry.
  rewrite calculate_distance_matrix_row, Hx. simpl.
  by rewrite list_lookup_imap, Hy.
Qed.

Lemma calculate_distance_matrix_imap (ccs : list Cc_with_type) (length : Z) :
  calculate_distance_matrix ccs length
  = imap (fun i x => imap (cell length i x) ccs) ccs.
Proof.
  apply list_eq. intros i.
  by rewrite calculate_distance_matrix_row, list_lookup_imap.
Qed.

(** *** Tolerances and integer offsets *)

Lemma tolerance_50 (g : Z) :
  tolerance g 50 10
  = if g <? 10 then (inject_Z 10 / 2)%Q
    else if g <? 50 then (inject_Z 10 * 2 / 3)%Q
    else inject_Z 10.
Proof.
  unfold tolerance.
  replace (Qltb (inject_Z g) (1 / 5 * inject_Z 50)) with (g <? 10); [done|].
  unfold Qltb. simpl. rewrite ?Pos.mul_1_r, ?Pos.mul_1_l.
  destruct (Z.ltb_spec g 10), (Z.ltb_spec (g * 5) (1 * 1 * 50 * 1)); (done || lia).
Qed.

Lemma below_tolerance (a g : Z) :
  Qltb (inject_Z a) (tolerance g 50 10) = (a <? tolerance_ceiling g).
Proof.
  rewrite tolerance_50. unfold tolerance_ceiling, Qltb.
  destruct (g <? 10); [|destruct (g <? 50)]; simpl;
    rewrite ?Pos.mul_1_r, ?Pos.mul_1_l;
    match goal with |- (?p <? ?q) = (?r <? ?s) =>
      destruct (Z.ltb_spec p q), (Z.ltb_spec r s); (done || lia) end.
Qed.

Lemma tolerance_ceiling_pos (g : Z) : 0 < tolerance_ceiling g.
Proof. unfold tolerance_ceiling. repeat case_match; lia. Qed.

(** [raw_distance] for [length = 50], in integers. *)
Lemma raw_distance_50 (x y : Cc_with_type) :
  raw_distance 50 x y
  = if left_of x y then
      let g := (cc_left x).2 - (cc_right y).2 in
      if Z.abs ((cc_left x).1 - (cc_right y).1) <? tolerance_ceiling g
      then g else g + Z.abs ((cc_left x).1 - (cc_right y).1) * 5
    else if right_of x y then
      let g := (cc_left y).2 - (cc_right x).2 in
      if Z.abs ((cc_left x).1 - (cc_right y).1) <? tolerance_ceiling g
      then g
      else if Z.abs ((cc_right x).1 - (cc_left y).1) <? tolerance_ceiling g
      then g else g + Z.abs ((cc_left y).1 - (cc_right x).1) * 5
    else 99999.
Proof.
  unfold raw_distance. cbv zeta. rewrite !below_tolerance.
  repeat case_match; done.
Qed.

Lemma same_type_sym (x y : Cc_with_type) : same_type x y = same_type y x.
Proof. unfold same_type. by rewrite String.eqb_sym. Qed.

Lemma same_type_pos (x y : Cc_with_type) : 0 < same_type x y.
Proof. unfold same_type. case_match; lia. Qed.

Lemma left_right_exclusive (x y : Cc_with_type) :
  spans_ordered x → spans_ordered y → left_of x y = true → right_of x y = false.
Proof.
  unfold spans_ordered, left_of, right_of. intros Hx Hy Hl.
  apply Z.gtb_gt in Hl. apply Z.ltb_ge. lia.
Qed.

Lemma left_of_right_of (x y : Cc_with_type) : left_of x y = right_of y x.
Proof. unfold left_of, right_of. apply Z.gtb_ltb. Qed.

(** *** Descriptors built by the constructor *)

Lemma mapM_OK {A B} (f : A → result B) (l : list A) (k : list B) :
  mapM f l = OK k → Forall2 (fun x y => f x = OK y) l k.
Proof.
  revert k. induction l as [|x l IH]; intros k; cbn [mapM].
  - intros [= <-]. constructor.
  - destruct (f x) as [y|e] eqn:Hy; cbn; [|done].
    destruct (mapM f l) as [k'|e]; cbn; [|done].
    intros [= <-]. constructor; [done | by apply IH].
Qed.

Lemma Cc_with_type_init_ordered (c : component) (ty : string) (d : Cc_with_type) :
  Cc_with_type_init c ty = OK d → spans_ordered d ∧ cc d = c ∧ type d = ty.
Proof.
  destruct c as [rows cols]. unfold Cc_with_type_init. cbn [fst snd].
  destruct (decide (cols = [])) as [->|Hne]; [done|].
  destruct (py_min_spec cols Hne) as (mn & Hmn & Hmn_in & Hmn_le).
  destruct (py_max_spec cols Hne) as (mx & Hmx & Hmx_in & Hmx_le).
  destruct (first_of_where cols cols mn eq_refl Hmn_in) as (il & l1 & El1 & Hl1 & Hlc & _).
  destruct (first_of_where cols cols mx eq_refl Hmx_in) as (ir & r1 & Er1 & Hr1 & Hrc & _).
  assert (l1 = mn) as -> by congruence.
  assert (r1 = mx) as -> by congruence.
  rewrite Hmn. cbn [mbind result_bind].
  destruct (take_indices rows (np_where_eq cols mn) ≫= _) as [l0|e]; [|done].
  rewrite El1, Hmx. cbn [mbind result_bind].
  destruct (take_indices rows (np_where_eq cols mx) ≫= _) as [r0|e]; [|done].
  rewrite Er1. cbn [mbind result_bind]. intros [= <-].
  unfold spans_ordered. simpl. split; [by apply Hmn_le | done].
Qed.

Lemma make_descriptors_spec (ty : string) (ccs : list component) (ds : list Cc_with_type) :
  make_descriptors ty ccs = OK ds →
  Forall (fun d => spans_ordered d ∧ type d = ty ∧ cc d ∈ ccs ∧
                   (10 < length (cc d).1)%nat) ds.
Proof.
  intros H. apply mapM_OK in H.
  remember (filter (fun x : component => (10 < length x.1)%nat) ccs) as l eqn:Hl.
  assert (Hsub : ∀ c, c ∈ l → c ∈ ccs ∧ (10 < length c.1)%nat).
  { intros c Hc. subst l. apply list_elem_of_filter in Hc. tauto. }
  clear Hl. induction H as [|c d l ds Hd _ IH]; [constructor|].
  constructor.
  - apply Cc_with_type_init_ordered in Hd as (? & -> & ?).
    destruct (Hsub c) as [? ?]; [constructor|]. done.
  - apply IH. intros c' Hc'. apply Hsub. by constructor.
Qed.

Lemma all_ccs_of_spec (base border : list component) (all_ccs : list Cc_with_type) :
  all_ccs_of base border = OK all_ccs →
  Forall (fun d => spans_ordered d ∧ (10 < length (cc d).1)%nat ∧
                   (cc d ∈ base ∨ cc d ∈ border)) all_ccs.
Proof.
  unfold all_ccs_of.
  destruct (make_descriptors "baseline" base) as [b|e] eqn:Hb; cbn; [|done].
  destruct (make_descriptors "baseline_border" border) as [bb|e] eqn:Hbb; cbn; [|done].
  intros [= <-]. apply Forall_app. split.
  - eapply Forall_impl; [by apply make_descriptors_spec|]. simpl. tauto.
  - eapply Forall_impl; [by apply make_descriptors_spec|]. simpl. tauto.
Qed.

(** *** The entries of the matrix *)

Ltac ltb_cases :=
  repeat match goal with
    | |- context [(?a >? ?b)] => rewrite (Z.gtb_ltb a b)
    | H : context [(?a >? ?b)] |- _ => rewrite (Z.gtb_ltb a b) in H
    | |- context [(?a <? ?b)] => destruct (Z.ltb_spec a b)
    | H : context [(?a <? ?b)] |- _ => destruct (Z.ltb_spec a b)
    end.

Lemma raw_distance_mirror (x y : Cc_with_type) :
  spans_ordered x → spans_ordered y →
  (raw_distance 50 x y = raw_distance 50 y x ↔
   one_sided_penalty 50 x y = false ∧ one_sided_penalty 50 y x = false).
Proof.
  unfold spans_ordered, one_sided_penalty. rewrite !raw_distance_50, !below_tolerance.
  unfold left_of, right_of.
  destruct x as [? [xlr xlc] [xrr xrc] ?], y as [? [ylr ylc] [yrr yrc] ?]. simpl.
  intros Hx Hy. unfold tolerance_ceiling.
  ltb_cases; simpl; (split; [intros ?; split; (done || lia) | intros [? ?]; (done || lia)]).
Qed.

(** C1 (amended). The diagonal of the matrix is zero, and the entries
    [(i, j)] and [(j, i)] are equal except when one of the two descriptors
    starts after the other ends, the vertical offset between the facing ends
    is not below the tolerance and the vertical offset between the far ends
    is below it: the left-of branch then adds the penalty and the right-of
    branch does not. *)
Theorem distance_matrix_diagonal_symmetry
    (ccs : list Cc_with_type) (i j : nat) (x y : Cc_with_type) :
  Forall spans_ordered ccs → ccs !! i = Some x → ccs !! j = Some y →
  entry (calculate_distance_matrix ccs 50) i i = Some 0 ∧
  (entry (calculate_distance_matrix ccs 50) i j
   = entry (calculate_distance_matrix ccs 50) j i
   ↔ i = j ∨ (one_sided_penalty 50 x y = false ∧ one_sided_penalty 50 y x = false)).
Proof.
  intros Hall Hx Hy.
  rewrite (calculate_distance_matrix_entry ccs 50 i i x x Hx Hx).
  rewrite (calculate_distance_matrix_entry ccs 50 i j x y Hx Hy).
  rewrite (calculate_distance_matrix_entry ccs 50 j i y x Hy Hx).
  unfold cell. rewrite Nat.eqb_refl. split; [done|].
  destruct (decide (i = j)) as [->|Hne].
  - rewrite Nat.eqb_refl. split; [by left | done].
  - rewrite (proj2 (Nat.eqb_neq i j) Hne).
    rewrite (proj2 (Nat.eqb_neq j i)) by congruence.
    rewrite (same_type_sym y x).
    pose proof (same_type_pos x y) as Hpos.
    assert (Hox : spans_ordered x).
    { eapply Forall_forall in Hall; [exact Hall|]. by eapply list_elem_of_lookup_2. }
    assert (Hoy : spans_ordered y).
    { eapply Forall_forall in Hall; [exact Hall|]. by eapply list_elem_of_lookup_2. }
    rewrite <- (raw_distance_mirror x y Hox Hoy). split.
    + intros [= Heq]. right. apply Z.mul_cancel_r in Heq; [done | lia].
    + intros [?|Heq]; [done | by rewrite Heq].
Qed.

(** C2 (amended). For two distinct descriptors with overlapping horizontal
    spans the entry is the sentinel 99999 times the type factor: 99999 when
    the two descriptors have the same type tag, 9999900 when they do not. *)
Theorem overlapping_spans_entry
    (ccs : list Cc_with_type) (i j : nat) (x y : Cc_with_type) :
  ccs !! i = Some x → ccs !! j = Some y → i ≠ j →
  left_of x y = false → right_of x y = false →
  entry (calculate_distance_matrix ccs 50) i j = Some (99999 * same_type x y) ∧
  (type x = type y → entry (calculate_distance_matrix ccs 50) i j = Some 99999) ∧
  (type x ≠ type y → entry (calculate_distance_matrix ccs 50) i j = Some 9999900).
Proof.
  intros Hx Hy Hne Hl Hr.
  rewrite (calculate_distance_matrix_entry ccs 50 i j x y Hx Hy).
  unfold cell. rewrite (proj2 (Nat.eqb_neq i j) Hne).
  rewrite raw_distance_50, Hl, Hr. unfold same_type.
  split; [done|]. split; intros Hty.
  - by rewrite (proj2 (String.eqb_eq _ _) Hty).
  - by rewrite (proj2 (String.eqb_neq _ _) Hty).
Qed.

Lemma below_tolerance_Qlt (a g : Z) :
  (inject_Z a < tolerance g 50 10)%Q ↔ a < tolerance_ceiling g.
Proof. rewrite <- Qltb_lt, below_tolerance. apply Z.ltb_lt. Qed.

(** C4. For two distinct descriptors the entry is the raw distance times
    the type factor.  When [x] is right-of [y] the raw distance is the gap
    [y.cc_left[1] - x.cc_right[1]], and the penalty
    [5 * |y.cc_left[0] - x.cc_right[0]|] is added exactly when both offsets
    [|x.cc_left[0] - y.cc_right[0]|] and [|x.cc_right[0] - y.cc_left[0]|]
    are not below the tolerance; when [x] is left-of [y] the penalty is added
    exactly when the single offset [|x.cc_left[0] - y.cc_right[0]|] is not
    below the tolerance. *)
Theorem right_of_distance
    (ccs : list Cc_with_type) (i j : nat) (x y : Cc_with_type) :
  ccs !! i = Some x → ccs !! j = Some y → i ≠ j →
  spans_ordered x → spans_ordered y →
  entry (calculate_distance_matrix ccs 50) i j
  = Some (raw_distance 50 x y * same_type x y) ∧
  (right_of x y = true →
   let g := (cc_left y).2 - (cc_right x).2 in
   let v := tolerance g 50 10 in
   let a := inject_Z (Z.abs ((cc_left x).1 - (cc_right y).1)) in
   let b := inject_Z (Z.abs ((cc_right x).1 - (cc_left y).1)) in
   (¬ (a < v)%Q ∧ ¬ (b < v)%Q →
    raw_distance 50 x y = g + 5 * Z.abs ((cc_left y).1 - (cc_right x).1)) ∧
   ((a < v)%Q ∨ (b < v)%Q → raw_distance 50 x y = g)) ∧
  (left_of x y = true →
   let g := (cc_left x).2 - (cc_right y).2 in
   let v := tolerance g 50 10 in
   let a := inject_Z (Z.abs ((cc_left x).1 - (cc_right y).1)) in
   (¬ (a < v)%Q → raw_distance 50 x y = g + 5 * Z.abs ((cc_left x).1 - (cc_right y).1)) ∧
   ((a < v)%Q → raw_distance 50 x y = g)).
Proof.
  intros Hx Hy Hne Hox Hoy. split; [|split].
  - rewrite (calculate_distance_matrix_entry ccs 50 i j x y Hx Hy).
    unfold cell. by rewrite (proj2 (Nat.eqb_neq i j) Hne).
  - intros Hr. cbv zeta. rewrite !below_tolerance_Qlt, raw_distance_50, Hr.
    destruct (left_of x y) eqn:Hl.
    { by rewrite (left_right_exclusive x y Hox Hoy Hl) in Hr. }
    cbv zeta. split; intros H; ltb_cases; lia.
  - intros Hl. cbv zeta. rewrite !below_tolerance_Qlt, raw_distance_50, Hl.
    cbv zeta. split; intros H; ltb_cases; lia.
Qed.

(** C5 (amended). When [x] is left-of [y] with gap
    [g = x.cc_left[1] - y.cc_right[1]], the tolerance is 5 for [g < 10],
    20/3 for [10 <= g < 50] and 10 otherwise; the raw distance is [g] when
    the offset [|x.cc_left[0] - y.cc_right[0]|] is strictly below the
    tolerance and [g + 5 * offset] when the offset is equal to the tolerance
    or above it.  In particular, for two descriptors of the same type with
    [g < 10] and offset below 5 the entry is [g]. *)
Theorem left_of_distance (x y : Cc_with_type) :
  left_of x y = true →
  let g := (cc_left x).2 - (cc_right y).2 in
  let v := tolerance g 50 10 in
  let off := Z.abs ((cc_left x).1 - (cc_right y).1) in
  (g < 10 → (v == 5)%Q) ∧
  (10 ≤ g < 50 → (v == 20 # 3)%Q) ∧
  (50 ≤ g → (v == 10)%Q) ∧
  ((inject_Z off < v)%Q → raw_distance 50 x y = g) ∧
  ((v <= inject_Z off)%Q → raw_distance 50 x y = g + 5 * off) ∧
  (∀ (ccs : list Cc_with_type) (i j : nat),
     ccs !! i = Some x → ccs !! j = Some y → i ≠ j →
     type x = type y → g < 10 → off < 5 →
     entry (calculate_distance_matrix ccs 50) i j = Some g).
Proof.
  intros Hl. cbv zeta.
  repeat split.
  - intros Hg. rewrite tolerance_50. by rewrite (proj2 (Z.ltb_lt _ _) Hg).
  - intros [Hg1 Hg2]. rewrite tolerance_50.
    by rewrite (proj2 (Z.ltb_ge _ _) Hg1), (proj2 (Z.ltb_lt _ _) Hg2).
  - intros Hg. rewrite tolerance_50.
    rewrite (proj2 (Z.ltb_ge _ 10)) by lia. by rewrite (proj2 (Z.ltb_ge _ _) Hg).
  - rewrite below_tolerance_Qlt, raw_distance_50, Hl. cbv zeta.
    intros H. ltb_cases; lia.
  - intros H. apply Qle_not_lt in H. rewrite below_tolerance_Qlt in H.
    rewrite raw_distance_50, Hl. cbv zeta. ltb_cases; lia.
  - intros ccs i j Hx Hy Hne Hty Hg Hoff.
    rewrite (calculate_distance_matrix_entry ccs 50 i j x y Hx Hy).
    unfold cell. rewrite (proj2 (Nat.eqb_neq i j) Hne).
    unfold same_type. rewrite (proj2 (String.eqb_eq _ _) Hty).
    rewrite raw_distance_50, Hl. cbv zeta. unfold tolerance_ceiling.
    f_equal. ltb_cases; lia.
Qed.

(** *** Concrete descriptors *)

Example all_ccs_of_run0_hook : all_ccs_of [run_row0; hook] [] = OK [d_run0; d_hook].
Proof. vm_compute. reflexivity. Qed.

Example all_ccs_of_run0_border1 : all_ccs_of [run_row0] [run_row1] = OK [d_run0; d_border1].
Proof. vm_compute. reflexivity. Qed.

Example all_ccs_of_run0_run5 : all_ccs_of [run_row0; run_row5] [] = OK [d_run0; d_run5].
Proof. vm_compute. reflexivity. Qed.

Example all_ccs_of_run0_run2 : all_ccs_of [run_row0; run_row2] [] = OK [d_run0; d_run2].
Proof. vm_compute. reflexivity. Qed.

(** C1, as stated, fails: the hook starts after the run ends, its left end
    is 7 rows below the right end of the run, its right end is in the row of
    the left end of the run.  The entry (hook, run) carries the penalty, the
    entry (run, hook) does not. *)
Lemma distance_matrix_not_symmetric :
  all_ccs_of [run_row0; hook] [] = OK [d_run0; d_hook] ∧
  Forall spans_ordered [d_run0; d_hook] ∧
  matrix_of [run_row0; hook] [] = OK [[0; 2]; [37; 0]] ∧
  entry (calculate_distance_matrix [d_run0; d_hook] 50) 0 1
  ≠ entry (calculate_distance_matrix [d_run0; d_hook] 50) 1 0.
Proof.
  split; [|split; [|split]].
  - vm_compute. reflexivity.
  - repeat constructor; unfold spans_ordered; simpl; lia.
  - vm_compute. reflexivity.
  - vm_compute. discriminate.
Qed.

Lemma distance_matrix_diagonal_symmetry_witness :
  Forall spans_ordered [d_run0; d_run5] ∧
  [d_run0; d_run5] !! 0%nat = Some d_run0 ∧ [d_run0; d_run5] !! 1%nat = Some d_run5 ∧
  entry (calculate_distance_matrix [d_run0; d_run5] 50) 0 0 = Some 0 ∧
  (entry (calculate_distance_matrix [d_run0; d_run5] 50) 0 1
   = entry (calculate_distance_matrix [d_run0; d_run5] 50) 1 0
   ↔ 0%nat = 1%nat ∨ (one_sided_penalty 50 d_run0 d_run5 = false ∧
                      one_sided_penalty 50 d_run5 d_run0 = false)).
Proof.
  assert (H : Forall spans_ordered [d_run0; d_run5]).
  { repeat constructor; unfold spans_ordered; simpl; lia. }
  split; [exact H|]. split; [reflexivity|]. split; [reflexivity|].
  exact (distance_matrix_diagonal_symmetry [d_run0; d_run5] 0 1 d_run0 d_run5
           H eq_refl eq_refl).
Defined.

(** C2, as stated, fails: a baseline run and a border run over the same
    columns have the entry 9999900, not 99999. *)
Lemma overlapping_spans_entry_not_sentinel :
  all_ccs_of [run_row0] [run_row1] = OK [d_run0; d_border1] ∧
  left_of d_run0 d_border1 = false ∧ right_of d_run0 d_border1 = false ∧
  entry (calculate_distance_matrix [d_run0; d_border1] 50) 0 1 = Some 9999900 ∧
  entry (calculate_distance_matrix [d_run0; d_border1] 50) 0 1 ≠ Some 99999.
Proof.
  repeat split; try (vm_compute; reflexivity). vm_compute. discriminate.
Qed.

Lemma overlapping_spans_entry_witness :
  [d_run0; d_border1] !! 0%nat = Some d_run0 ∧
  [d_run0; d_border1] !! 1%nat = Some d_border1 ∧ 0%nat ≠ 1%nat ∧
  left_of d_run0 d_border1 = false ∧ right_of d_run0 d_border1 = false ∧
  entry (calculate_distance_matrix [d_run0; d_border1] 50) 0 1
  = Some (99999 * same_type d_run0 d_border1).
Proof.
  repeat (split; [first [reflexivity | lia]|]).
  exact (proj1 (overlapping_spans_entry [d_run0; d_border1] 0 1 d_run0 d_border1
                  eq_refl eq_refl ltac:(lia) eq_refl eq_refl)).
Defined.

Lemma right_of_distance_witness :
  [d_run0; d_hook] !! 0%nat = Some d_run0 ∧ [d_run0; d_hook] !! 1%nat = Some d_hook ∧
  0%nat ≠ 1%nat ∧ spans_ordered d_run0 ∧ spans_ordered d_hook ∧
  right_of d_run0 d_hook = true ∧
  entry (calculate_distance_matrix [d_run0; d_hook] 50) 0 1
  = Some (raw_distance 50 d_run0 d_hook * same_type d_run0 d_hook) ∧
  raw_distance 50 d_run0 d_hook = (cc_left d_hook).2 - (cc_right d_run0).2.
Proof.
  assert (H0 : spans_ordered d_run0) by (unfold spans_ordered; simpl; lia).
  assert (H1 : spans_ordered d_hook) by (unfold spans_ordered; simpl; lia).
  do 6 (split; [first [reflexivity | lia | assumption]|]).
  destruct (right_of_distance [d_run0; d_hook] 0 1 d_run0 d_hook
              eq_refl eq_refl ltac:(lia) H0 H1) as (He & Hr & _).
  split; [exact He|].
  apply (Hr eq_refl). left. reflexivity.
Defined.

(** C5, as stated, fails at an offset equal to the tolerance: the run in
    row 5 starts 2 columns after the run in row 0 ends, the tolerance is 5
    and the offset is 5, which does not exceed it; the distance is
    [2 + 5 * 5], not 2. *)
Lemma left_of_distance_penalty_at_tolerance :
  all_ccs_of [run_row0; run_row5] [] = OK [d_run0; d_run5] ∧
  left_of d_run5 d_run0 = true ∧
  (cc_left d_run5).2 - (cc_right d_run0).2 = 2 ∧
  Z.abs ((cc_left d_run5).1 - (cc_right d_run0).1) = 5 ∧
  (tolerance 2 50 10 == 5)%Q ∧
  ¬ (tolerance 2 50 10 < inject_Z 5)%Q ∧
  raw_distance 50 d_run5 d_run0 = 27 ∧
  raw_distance 50 d_run5 d_run0 ≠ 2 ∧
  entry (calculate_distance_matrix [d_run0; d_run5] 50) 1 0 = Some 27.
Proof.
  repeat split; try (vm_compute; reflexivity); vm_compute; discriminate.
Qed.

Lemma left_of_distance_witness :
  left_of d_hook d_run0 = true ∧
  (tolerance ((cc_left d_hook).2 - (cc_right d_run0).2) 50 10
   <= inject_Z (Z.abs ((cc_left d_hook).1 - (cc_right d_run0).1)))%Q ∧
  raw_distance 50 d_hook d_run0 = 2 + 5 * 7 ∧
  (∀ (ccs : list Cc_with_type) (i j : nat),
     ccs !! i = Some d_run2 → ccs !! j = Some d_run0 → i ≠ j →
     type d_run2 = type d_run0 →
     (cc_left d_run2).2 - (cc_right d_run0).2 < 10 →
     Z.abs ((cc_left d_run2).1 - (cc_right d_run0).1) < 5 →
     entry (calculate_distance_matrix ccs 50) i j
     = Some ((cc_left d_run2).2 - (cc_right d_run0).2)).
Proof.
  assert (Hq : (tolerance ((cc_left d_hook).2 - (cc_right d_run0).2) 50 10
                <= inject_Z (Z.abs ((cc_left d_hook).1 - (cc_right d_run0).1)))%Q).
  { vm_compute. discriminate. }
  split; [reflexivity|]. split; [exact Hq|]. split.
  - exact (proj1 (proj2 (proj2 (proj2 (proj2
             (left_of_distance d_hook d_run0 eq_refl))))) Hq).
  - exact (proj2 (proj2 (proj2 (proj2 (proj2
             (left_of_distance d_run2 d_run0 eq_refl)))))).
Defined.

(** *** A concrete component and a concrete tensor *)

Lemma Cc_with_type_init_extremes_witness :
  aligned hook ∧ hook.2 ≠ [] ∧
  ∃ d il ir, Cc_with_type_init hook "baseline" = OK d ∧
    first_in_column hook il (cc_left d) ∧ (∀ x, x ∈ hook.2 → (cc_left d).2 ≤ x) ∧
    first_in_column hook ir (cc_right d) ∧ (∀ x, x ∈ hook.2 → x ≤ (cc_right d).2) ∧
    (StronglySorted Z.le hook.1 →
     ∀ j r, hook.1 !! j = Some r →
       (hook.2 !! j = Some (cc_left d).2 → (cc_left d).1 ≤ r) ∧
       (hook.2 !! j = Some (cc_right d).2 → (cc_right d).1 ≤ r)).
Proof.
  split; [reflexivity|]. split; [discriminate|].
  exact (Cc_with_type_init_extremes hook "baseline" eq_refl ltac:(discriminate)).
Defined.

Example pad_t_2x3 :
  dim2 <$> pad 0 t_2x3 32 = OK 32%nat ∧ dim3 <$> pad 0 t_2x3 32 = OK 32%nat.
Proof. split; vm_compute; reflexivity. Qed.

Lemma pad_unpad_roundtrip_witness :
  tensor_wf t_2x3 ∧ ∃ p, pad 0 t_2x3 32 = OK p ∧ unpad p (dim2 t_2x3, dim3 t_2x3) = t_2x3.
Proof.
  assert (H : tensor_wf t_2x3).
  { unfold tensor_wf, plane_wf, t_2x3. simpl. repeat constructor. }
  split; [exact H|]. exact (pad_unpad_roundtrip 0 t_2x3 H).
Defined.

(** ** [normalize_connected_components] *)

Example normalize_cc_ex : normalize_cc cluster_ex = [(5, 2); (4, 5); (8, 9)].
Proof. vm_compute. reflexivity. Qed.

Lemma rows_at_snoc (c : Z) (cc : list (Z * Z)) (y x : Z) :
  rows_at c (cc ++ [(y, x)]) = rows_at c cc ++ (if decide (x = c) then [y] else []).
Proof.
  unfold rows_at. rewrite filter_app, fmap_app. f_equal.
  rewrite filter_cons. simpl. by case_decide.
Qed.

Lemma elem_of_rows_at (c y : Z) (cc : list (Z * Z)) :
  y ∈ rows_at c cc ↔ (y, c) ∈ cc.
Proof.
  unfold rows_at. rewrite list_elem_of_fmap. split.
  - intros ([y' x] & -> & Hin). apply list_elem_of_filter in Hin as [Hx Hin].
    simpl in *. by subst x.
  - intros Hin. exists (y, c). split; [done|]. by apply list_elem_of_filter.
Qed.

(** The dictionary built by the loop [for y, x in cc] maps every column of
    [cc] to the rows of its pixels, in their order of appearance. *)
Lemma cc_dict_lookup (cc : list (Z * Z)) (c : Z) :
  foldl add_point ∅ cc !! c
  = match rows_at c cc with [] => None | rows => Some rows end.
Proof.
  induction cc as [|[y x] cc IH] using rev_ind; [done|].
  rewrite foldl_app, rows_at_snoc. simpl.
  destruct (decide (x = c)) as [->|Hne].
  - rewrite lookup_insert_eq, IH.
    destruct (rows_at c cc) as [|r rs] eqn:Hr; simpl; [done|].
    by destruct (rs ++ [y]) eqn:E; [destruct rs; discriminate|].
  - rewrite lookup_insert_ne by done. by rewrite app_nil_r.
Qed.

Lemma cc_dict_keys (cc : list (Z * Z)) (c : Z) :
  c ∈ (map_to_list (foldl add_point ∅ cc)).*1 ↔ c ∈ cc.*2.
Proof.
  rewrite list_elem_of_fmap. split.
  - intros ([c' rows] & -> & Hin). apply elem_of_map_to_list in Hin.
    rewrite cc_dict_lookup in Hin. simpl.
    destruct (rows_at c' cc) as [|r rs] eqn:Hr; [done|].
    assert (r ∈ rows_at c' cc) as Hel by (rewrite Hr; constructor).
    apply elem_of_rows_at in Hel. apply list_elem_of_fmap. by exists (r, c').
  - intros Hin. apply list_elem_of_fmap in Hin as ([y x] & -> & Hin). simpl.
    apply elem_of_rows_at in Hin.
    destruct (rows_at x cc) as [|r rs] eqn:Hr; [by apply elem_of_nil in Hin|].
    exists (x, r :: rs). split; [done|]. apply elem_of_map_to_list.
    by rewrite cc_dict_lookup, Hr.
Qed.

Lemma StronglySorted_le_lt (l : list Z) :
  StronglySorted Z.le l → NoDup l → StronglySorted Z.lt l.
Proof.
  induction 1 as [|x l Hs IH Hx]; intros Hnd; [constructor|].
  apply NoDup_cons in Hnd as [Hnin Hnd]. constructor; [by apply IH|].
  apply Forall_forall. intros y Hy.
  pose proof (proj1 (Forall_forall _ _) Hx y Hy) as Hle.
  destruct (decide (x = y)) as [->|]; [done | lia].
Qed.

Lemma sorted_keys_spec (d : gmap Z (list Z)) :
  StronglySorted Z.lt (sorted_keys d) ∧
  ∀ c, c ∈ sorted_keys d ↔ c ∈ (map_to_list d).*1.
Proof.
  unfold sorted_keys. split.
  - apply StronglySorted_le_lt.
    + apply StronglySorted_merge_sort; apply _.
    + rewrite merge_sort_Permutation. apply NoDup_fst_map_to_list.
  - intros c. by rewrite merge_sort_Permutation.
Qed.

Lemma normalize_cc_columns_eq (cc : list (Z * Z)) :
  (normalize_cc cc).*2 = sorted_keys (foldl add_point ∅ cc).
Proof.
  unfold normalize_cc. cbv zeta. rewrite <- list_fmap_compose.
  induction (sorted_keys _) as [|k ks IH]; [done|]. rewrite fmap_cons. by f_equal.
Qed.

Lemma normalize_cc_sample (cc : list (Z * Z)) (v c : Z) :
  (v, c) ∈ normalize_cc cc →
  rows_at c cc ≠ [] ∧ v = Qfloor (np_mean (rows_at c cc) + 1 / 2)%Q.
Proof.
  unfold normalize_cc. cbv zeta. intros Hin.
  apply list_elem_of_fmap in Hin as (key & [= -> ->] & Hkey).
  apply sorted_keys_spec, cc_dict_keys in Hkey.
  apply list_elem_of_fmap in Hkey as ([y x] & -> & Hin). simpl.
  apply elem_of_rows_at in Hin. rewrite cc_dict_lookup.
  destruct (rows_at x cc) as [|r rs] eqn:Hr; [by apply elem_of_nil in Hin|].
  done.
Qed.

(** C6. For every cluster of pixels, the normalization emits samples whose
    columns are strictly increasing (so no column occurs twice), the columns
    of the samples are exactly the columns present in the cluster, and the
    vertical position of the sample of a column is
    [floor(mean(rows at that column) + 1/2)]. *)
Theorem normalize_one_sample_per_column (cc_list : list (list (Z * Z))) :
  Forall2 (fun cc out =>
             StronglySorted Z.lt out.*2 ∧ NoDup out.*2 ∧
             (∀ c, c ∈ out.*2 ↔ c ∈ cc.*2) ∧
             (∀ v c, (v, c) ∈ out →
                     v = Qfloor (np_mean (rows_at c cc) + 1 / 2)%Q))
          cc_list (normalize_connected_components cc_list).
Proof.
  unfold normalize_connected_components, normalize.
  apply Forall2_fmap_r, Forall_Forall2_diag, Forall_forall. intros cc _.
  unfold compose. cbv beta. rewrite normalize_cc_columns_eq.
  destruct (sorted_keys_spec (foldl add_point ∅ cc)) as [Hs Hk].
  repeat split.
  - done.
  - unfold sorted_keys. rewrite merge_sort_Permutation. apply NoDup_fst_map_to_list.
  - intros Hc. by apply cc_dict_keys, Hk.
  - intros Hc. by apply Hk, cc_dict_keys.
  - intros v c Hin. by apply normalize_cc_sample.
Qed.

(** *** The rounded mean stays within the rows it summarizes *)

Lemma Zsum_bounds (l : list Z) (lo hi : Z) :
  (∀ y, y ∈ l → lo ≤ y ≤ hi) →
  Z.of_nat (length l) * lo ≤ Zsum l ≤ Z.of_nat (length l) * hi.
Proof.
  induction l as [|y l IH]; intros H; simpl; [lia|].
  assert (lo ≤ y ≤ hi) by (apply H; constructor).
  assert (Z.of_nat (length l) * lo ≤ Zsum l ≤ Z.of_nat (length l) * hi).
  { apply IH. intros z Hz. apply H. by constructor. }
  unfold Zsum in *. lia.
Qed.

Lemma np_mean_bounds (l : list Z) (lo hi : Z) :
  l ≠ [] → (∀ y, y ∈ l → lo ≤ y ≤ hi) →
  (inject_Z lo <= np_mean l)%Q ∧ (np_mean l <= inject_Z hi)%Q.
Proof.
  intros Hne H. pose proof (Zsum_bounds l lo hi H) as [Hlo Hhi].
  assert (Hn : (0 < inject_Z (Z.of_nat (length l)))%Q).
  { rewrite <- (Zlt_Qlt 0). destruct l; [done | simpl; lia]. }
  unfold np_mean. split.
  - apply Qle_shift_div_l; [done|].
    rewrite <- inject_Z_mult, <- Zle_Qle. lia.
  - apply Qle_shift_div_r; [done|].
    rewrite <- inject_Z_mult, <- Zle_Qle. lia.
Qed.

Lemma round_mean_bounds (l : list Z) (lo hi : Z) :
  l ≠ [] → (∀ y, y ∈ l → lo ≤ y ≤ hi) →
  lo ≤ Qfloor (np_mean l + 1 / 2)%Q ≤ hi.
Proof.
  intros Hne H. destruct (np_mean_bounds l lo hi Hne H) as [Hlo Hhi]. split.
  - rewrite <- (Qfloor_Z lo). apply Qfloor_resp_le.
    apply Qle_trans with (np_mean l + 0)%Q.
    + by rewrite Qplus_0_r.
    + apply Qplus_le_r. done.
  - apply Z.lt_succ_r. rewrite Zlt_Qlt.
    eapply Qle_lt_trans; [apply Qfloor_le|].
    unfold Z.succ. rewrite inject_Z_plus.
    rewrite (Qplus_comm (np_mean l)), (Qplus_comm (inject_Z hi)).
    apply Qplus_lt_le_compat; [reflexivity | done].
Qed.

Lemma normalize_cc_within_rows (cc : list (Z * Z)) (v c : Z) :
  (v, c) ∈ normalize_cc cc →
  ∃ lo hi, (lo, c) ∈ cc ∧ (hi, c) ∈ cc ∧
           (∀ y, (y, c) ∈ cc → lo ≤ y ≤ hi) ∧ lo ≤ v ≤ hi.
Proof.
  intros Hin. apply normalize_cc_sample in Hin as [Hne ->].
  destruct (py_min_spec _ Hne) as (lo & _ & Hlo_in & Hlo).
  destruct (py_max_spec _ Hne) as (hi & _ & Hhi_in & Hhi).
  assert (Hall : ∀ y, y ∈ rows_at c cc → lo ≤ y ≤ hi).
  { intros y Hy. split; [by apply Hlo | by apply Hhi]. }
  exists lo, hi. split; [by apply elem_of_rows_at|].
  split; [by apply elem_of_rows_at|]. split.
  - intros y Hy. by apply Hall, elem_of_rows_at.
  - by apply round_mean_bounds.
Qed.

(** C10. For the [k]-th cluster [cc] and every sample [(v, c)] of its
    normalized curve, [v] lies between the least and the greatest row among
    the pixels of [cc] in column [c]. *)
Theorem normalize_within_rows
    (cc_list : list (list (Z * Z))) (k : nat) (cc out : list (Z * Z)) (v c : Z) :
  cc_list !! k = Some cc →
  normalize_connected_components cc_list !! k = Some out →
  (v, c) ∈ out →
  ∃ lo hi, (lo, c) ∈ cc ∧ (hi, c) ∈ cc ∧
           (∀ y, (y, c) ∈ cc → lo ≤ y ≤ hi) ∧ lo ≤ v ≤ hi.
Proof.
  unfold normalize_connected_components, normalize. intros Hcc Hout.
  rewrite list_lookup_fmap, Hcc in Hout. injection Hout as <-.
  apply normalize_cc_within_rows.
Qed.

Lemma normalize_within_rows_witness :
  [cluster_ex] !! 0%nat = Some cluster_ex ∧
  normalize_connected_components [cluster_ex] !! 0%nat = Some [(5, 2); (4, 5); (8, 9)] ∧
  (5, 2) ∈ [(5, 2); (4, 5); (8, 9)] ∧
  ∃ lo hi, (lo, 2) ∈ cluster_ex ∧ (hi, 2) ∈ cluster_ex ∧
           (∀ y, (y, 2) ∈ cluster_ex → lo ≤ y ≤ hi) ∧ lo ≤ 5 ≤ hi.
Proof.
  assert (H1 : normalize_connected_components [cluster_ex] !! 0%nat
               = Some [(5, 2); (4, 5); (8, 9)]).
  { vm_compute. reflexivity. }
  assert (H2 : (5, 2) ∈ [(5, 2); (4, 5); (8, 9)]) by constructor.
  split; [reflexivity|]. split; [exact H1|]. split; [exact H2|].
  exact (normalize_within_rows [cluster_ex] 0 cluster_ex _ 5 2 eq_refl H1 H2).
Defined.

(** ** [extract_baselines] *)

Lemma make_descriptors_drop (ty : string) (c : component) (b1 b2 : list component) :
  (length c.1 ≤ 10)%nat →
  make_descriptors ty (b1 ++ c :: b2) = make_descriptors ty (b1 ++ b2).
Proof.
  intros Hc. unfold make_descriptors.
  rewrite !filter_app, filter_cons. by rewrite decide_False by lia.
Qed.

Section PipelineFacts.
Variable DBSCAN_labels : list (list Z) → result (list Z).

(** C7. A component of at most 10 pixels is dropped before the
    descriptors are built: no descriptor of [all_ccs] owns it, and the
    descriptors, the matrix, the clusters and the final list are the same
    as for the input without that component, whether it was found in the
    baseline mask or in the border mask. *)
Theorem small_component_dropped (c : component) (b1 b2 other : list component) :
  (length c.1 ≤ 10)%nat →
  (∀ base border all_ccs,
     all_ccs_of base border = OK all_ccs → ∀ d, d ∈ all_ccs → cc d ≠ c) ∧
  (all_ccs_of (b1 ++ c :: b2) other = all_ccs_of (b1 ++ b2) other ∧
   matrix_of (b1 ++ c :: b2) other = matrix_of (b1 ++ b2) other ∧
   clusters_of DBSCAN_labels (b1 ++ c :: b2) other
   = clusters_of DBSCAN_labels (b1 ++ b2) other ∧
   extract_baselines DBSCAN_labels (b1 ++ c :: b2) other
   = extract_baselines DBSCAN_labels (b1 ++ b2) other) ∧
  (all_ccs_of other (b1 ++ c :: b2) = all_ccs_of other (b1 ++ b2) ∧
   matrix_of other (b1 ++ c :: b2) = matrix_of other (b1 ++ b2) ∧
   clusters_of DBSCAN_labels other (b1 ++ c :: b2)
   = clusters_of DBSCAN_labels other (b1 ++ b2) ∧
   extract_baselines DBSCAN_labels other (b1 ++ c :: b2)
   = extract_baselines DBSCAN_labels other (b1 ++ b2)).
Proof.
  intros Hc.
  assert (Hb : all_ccs_of (b1 ++ c :: b2) other = all_ccs_of (b1 ++ b2) other).
  { unfold all_ccs_of. by rewrite make_descriptors_drop. }
  assert (Hbb : all_ccs_of other (b1 ++ c :: b2) = all_ccs_of other (b1 ++ b2)).
  { unfold all_ccs_of. by rewrite (make_descriptors_drop "baseline_border"). }
  split; [|split].
  - intros base border all_ccs Hall d Hd Heq.
    apply all_ccs_of_spec in Hall.
    pose proof (proj1 (Forall_forall _ _) Hall d Hd) as (_ & Hlen & _).
    rewrite Heq in Hlen. lia.
  - unfold extract_baselines, clusters_of, matrix_of. by rewrite Hb.
  - unfold extract_baselines, clusters_of, matrix_of. by rewrite Hbb.
Qed.

(** Without any component the descriptor list is empty and the matrix is
    the 0 x 0 matrix; what happens then is up to the clusterer: its
    exception propagates, and if it returns no label the result is the
    empty list. *)
Lemma extract_baselines_no_component :
  all_ccs_of [] [] = OK [] ∧ matrix_of [] [] = OK [] ∧
  (∀ e, DBSCAN_labels [] = Raise e →
        extract_baselines DBSCAN_labels [] [] = Raise e) ∧
  (DBSCAN_labels [] = OK [] → extract_baselines DBSCAN_labels [] [] = OK []).
Proof.
  split; [done|]. split; [done|]. unfold extract_baselines, clusters_of.
  split.
  - intros e He. cbn. by rewrite He.
  - intros He. cbn. by rewrite He.
Qed.

(** Whenever a cluster reaches line 394 the call fails: with one cluster
    label for all descriptors, a single component of eleven pixels ends in
    [TypeError]. *)
Lemma mapM_zip_line_394 (ccs : list component) :
  mapM zip_line_394 ccs = OK [] ∨ ∃ e, mapM zip_line_394 ccs = Raise e.
Proof.
  destruct ccs as [|x ccs]; [by left|]. right. cbn [mapM].
  unfold zip_line_394.
  destruct (getitem x.2 0) as [?|e]; cbn; [|by eexists].
  destruct (getitem x.2 1) as [?|e]; cbn; by eexists.
Qed.

End PipelineFacts.

Example all_ccs_of_speck : all_ccs_of [speck] [] = OK [].
Proof. vm_compute. reflexivity. Qed.

Example extract_baselines_one_run :
  clusters_of one_cluster [run_row0] [] = OK [run_row0] ∧
  extract_baselines one_cluster [run_row0] [] = Raise TypeError.
Proof. split; vm_compute; reflexivity. Qed.

Lemma small_component_dropped_witness :
  (length speck.1 ≤ 10)%nat ∧
  all_ccs_of ([run_row0] ++ speck :: [hook]) [run_row1]
  = all_ccs_of ([run_row0] ++ [hook]) [run_row1] ∧
  clusters_of one_cluster ([run_row0] ++ speck :: [hook]) [run_row1]
  = clusters_of one_cluster ([run_row0] ++ [hook]) [run_row1].
Proof.
  assert (H : (length speck.1 ≤ 10)%nat) by (simpl; lia).
  split; [exact H|].
  pose proof (small_component_dropped one_cluster speck [run_row0] [hook] [run_row1] H)
    as (_ & (Ha & _ & Hc & _) & _).
  exact (conj Ha Hc).
Defined.

(** * Further properties of the code *)

(** ** [pad] and [unpad]: shapes *)

Section TensorShapes.
Context {A : Type} (zero : A).

Lemma pad_amount (h factor : nat) :
  factor ≠ 0%nat →
  let d := (factor - h `mod` factor)%nat in
  let d' := if negb (factor =? d)%nat then d else 0%nat in
  ((h + d') `mod` factor = 0 ∧ d' < factor ∧
   (h `mod` factor = 0 → d' = 0))%nat.
Proof.
  intros Hf. cbv zeta.
  pose proof (Nat.mod_upper_bound h factor Hf) as Hlt.
  pose proof (Nat.div_mod_eq h factor) as Hdm.
  destruct (Nat.eqb_spec factor (factor - h `mod` factor)) as [He|Hne]; simpl.
  - rewrite Nat.add_0_r. repeat split; lia.
  - repeat split; [|lia|lia].
    replace (h + (factor - h `mod` factor))%nat
      with ((h `div` factor + 1) * factor)%nat by lia.
    apply Nat.Div0.mod_mul.
Qed.

Lemma F_pad_wf (t : tensor A) (r bot : nat) :
  tensor_wf t → tensor_wf (F_pad zero t 0 r 0 bot).
Proof.
  destruct t as [n c h w d]. unfold tensor_wf, F_pad. simpl.
  intros [Hn Hd]. split; [by rewrite length_fmap|].
  apply Forall_fmap. eapply Forall_impl; [exact Hd|]. simpl.
  intros b [Hc Hb]. split; [by rewrite length_fmap|].
  apply Forall_fmap. eapply Forall_impl; [exact Hb|]. simpl.
  intros p [Hh Hw]. split.
  - rewrite length_app, length_fmap, length_replicate. lia.
  - apply Forall_app. split.
    + apply Forall_fmap. eapply Forall_impl; [exact Hw|]. simpl.
      intros row Hrow. rewrite length_app, length_replicate. lia.
    + apply Forall_replicate. by rewrite length_replicate.
Qed.

Lemma pad_dims (t p : tensor A) (factor : nat) :
  factor ≠ 0%nat → tensor_wf t → pad zero t factor = OK p →
  tensor_wf p ∧ dim0 p = dim0 t ∧ dim1 p = dim1 t ∧
  (dim2 t ≤ dim2 p < dim2 t + factor)%nat ∧ (dim2 p `mod` factor = 0)%nat ∧
  (dim3 t ≤ dim3 p < dim3 t + factor)%nat ∧ (dim3 p `mod` factor = 0)%nat.
Proof.
  intros Hf Hwf. unfold pad.
  destruct (Nat.eqb_spec factor 0) as [|_]; [done|].
  destruct (pad_amount (dim2 t) factor Hf) as (Hh & Hhlt & _).
  destruct (pad_amount (dim3 t) factor Hf) as (Hx & Hxlt & _).
  cbv zeta in Hh, Hhlt, Hx, Hxlt.
  set (h_dif := if negb (factor =? factor - dim2 t `mod` factor)%nat
                then (factor - dim2 t `mod` factor)%nat else 0%nat) in *.
  set (x_dif := if negb (factor =? factor - dim3 t `mod` factor)%nat
                then (factor - dim3 t `mod` factor)%nat else 0%nat) in *.
  destruct (Nat.eqb_spec h_dif 0) as [Hh0|Hh0];
    destruct (Nat.eqb_spec x_dif 0) as [Hx0|Hx0]; simpl; intros [= <-];
    try (split; [by apply F_pad_wf|]; simpl; repeat split; (done || lia)).
  rewrite Hh0, Hx0, !Nat.add_0_r in *. split; [done|]. repeat split; (done || lia).
Qed.

(** X1. For a positive [factor], [pad] of a rectangular tensor is a
    rectangular tensor with the same batch and channel sizes whose last two
    sizes are multiples of [factor], not below the original sizes and less
    than [factor] above them. *)
Theorem pad_shape (t p : tensor A) (factor : nat) :
  factor ≠ 0%nat → tensor_wf t → pad zero t factor = OK p →
  tensor_wf p ∧ dim0 p = dim0 t ∧ dim1 p = dim1 t ∧
  (dim2 t ≤ dim2 p < dim2 t + factor)%nat ∧ (dim2 p `mod` factor = 0)%nat ∧
  (dim3 t ≤ dim3 p < dim3 t + factor)%nat ∧ (dim3 p `mod` factor = 0)%nat.
Proof. apply pad_dims. Qed.

(** X2. Padding is idempotent: [pad] applied to a padded tensor returns
    it unchanged. *)
Theorem pad_idempotent (t p : tensor A) (factor : nat) :
  factor ≠ 0%nat → tensor_wf t → pad zero t factor = OK p →
  pad zero p factor = OK p.
Proof.
  intros Hf Hwf Hp.
  destruct (pad_dims t p factor Hf Hwf Hp) as (_ & _ & _ & _ & H2 & _ & H3).
  unfold pad. destruct (Nat.eqb_spec factor 0) as [|_]; [done|].
  rewrite H2, H3, Nat.sub_0_r, Nat.eqb_refl. done.
Qed.

(** X3. [unpad] of a rectangular tensor is a rectangular tensor; the batch
    and channel sizes are kept and each of the last two sizes is the minimum
    of the old size and the requested one, so [unpad] never enlarges. *)
Theorem unpad_shape (t : tensor A) (o_shape : nat * nat) :
  tensor_wf t →
  tensor_wf (unpad t o_shape) ∧
  dim0 (unpad t o_shape) = dim0 t ∧ dim1 (unpad t o_shape) = dim1 t ∧
  dim2 (unpad t o_shape) = (dim2 t `min` o_shape.1)%nat ∧
  dim3 (unpad t o_shape) = (dim3 t `min` o_shape.2)%nat.
Proof.
  destruct t as [n c h w d], o_shape as [oh ow].
  unfold tensor_wf, unpad. simpl. intros [Hn Hd].
  split; [|done]. split; [by rewrite length_fmap|].
  apply Forall_fmap. eapply Forall_impl; [exact Hd|]. simpl.
  intros b [Hc Hb]. split; [by rewrite length_fmap|].
  apply Forall_fmap. eapply Forall_impl; [exact Hb|]. simpl.
  intros p [Hh Hw]. split.
  - rewrite length_fmap, length_take. lia.
  - apply Forall_fmap, Forall_take. eapply Forall_impl; [exact Hw|]. simpl.
    intros row Hrow. rewrite length_take. lia.
Qed.

(** X4. Two crops compose into one crop to the smaller sizes. *)
Theorem unpad_unpad (t : tensor A) (s1 s2 : nat * nat) :
  unpad (unpad t s1) s2 = unpad t (s2.1 `min` s1.1, s2.2 `min` s1.2)%nat.
Proof.
  destruct t as [n c h w d], s1 as [h1 w1], s2 as [h2 w2]. unfold unpad. simpl.
  f_equal; try lia.
  rewrite <- list_fmap_compose. apply list_fmap_ext. intros _ b _. simpl.
  rewrite <- list_fmap_compose. apply list_fmap_ext. intros _ p _. simpl.
  rewrite <- fmap_take, take_take, <- list_fmap_compose.
  apply list_fmap_ext. intros _ row _. simpl. apply take_take.
Qed.

End TensorShapes.

Lemma pad_shape_witness :
  32%nat ≠ 0%nat ∧ tensor_wf t_2x3 ∧
  ∃ p, pad 0 t_2x3 32 = OK p ∧ tensor_wf p ∧ dim2 p = 32%nat ∧ dim3 p = 32%nat.
Proof.
  assert (H : tensor_wf t_2x3).
  { unfold tensor_wf, plane_wf, t_2x3. simpl. repeat constructor. }
  split; [lia|]. split; [exact H|].
  destruct (pad 0 t_2x3 32) as [p|e] eqn:Hp; [|discriminate Hp].
  exists p. split; [reflexivity|].
  destruct (pad_shape 0 t_2x3 p 32 ltac:(lia) H Hp) as (Hwf & _ & _ & H2 & H2m & H3 & H3m).
  split; [exact Hwf|].
  injection Hp as <-. split; reflexivity.
Defined.

(** ** The constructor of [Cc_with_type] *)

Lemma mapM_all_OK {X Y} (f : X → result Y) (P : X → Y → Prop) (l : list X) :
  Forall (fun x => ∃ y, f x = OK y ∧ P x y) l →
  ∃ k, mapM f l = OK k ∧ Forall2 P l k.
Proof.
  induction 1 as [|x l (y & Hy & HP) _ (k & Hk & HF)].
  - exists []. split; [done | constructor].
  - exists (y :: k). cbn [mapM]. rewrite Hy, Hk. split; [done | by constructor].
Qed.

(** X5. Whenever the constructor returns a descriptor, it stores the
    component and the type tag, the column of [cc_left] is the least column
    of the component and the column of [cc_right] the greatest, so
    [cc_left[1] <= cc_right[1]]. *)
Theorem Cc_with_type_init_columns (c : component) (ty : string) (d : Cc_with_type) :
  Cc_with_type_init c ty = OK d →
  cc d = c ∧ type d = ty ∧
  (cc_left d).2 ∈ c.2 ∧ (cc_right d).2 ∈ c.2 ∧
  (∀ x, x ∈ c.2 → (cc_left d).2 ≤ x ≤ (cc_right d).2) ∧
  (cc_left d).2 ≤ (cc_right d).2.
Proof.
  destruct c as [rows cols]. unfold Cc_with_type_init. cbn [fst snd].
  destruct (decide (cols = [])) as [->|Hne]; [done|].
  destruct (py_min_spec cols Hne) as (mn & Hmn & Hmn_in & Hmn_le).
  destruct (py_max_spec cols Hne) as (mx & Hmx & Hmx_in & Hmx_le).
  destruct (first_of_where cols cols mn eq_refl Hmn_in) as (il & l1 & El1 & Hl1 & Hlc & _).
  destruct (first_of_where cols cols mx eq_refl Hmx_in) as (ir & r1 & Er1 & Hr1 & Hrc & _).
  assert (l1 = mn) as -> by congruence.
  assert (r1 = mx) as -> by congruence.
  rewrite Hmn. cbn [mbind result_bind].
  destruct (take_indices rows (np_where_eq cols mn) ≫= _) as [l0|e]; [|done].
  rewrite El1, Hmx. cbn [mbind result_bind].
  destruct (take_indices rows (np_where_eq cols mx) ≫= _) as [r0|e]; [|done].
  rewrite Er1. cbn [mbind result_bind]. intros [= <-]. simpl.
  repeat split; try done.
  - by apply Hmn_le.
  - by apply Hmx_le.
  - by apply Hmn_le.
Qed.

(** X6. On a component whose two index arrays have the same length the
    constructor raises exactly for the empty component, and then
    [ValueError] (from [min] of an empty sequence); it never raises
    [IndexError]. *)
Theorem Cc_with_type_init_raises (c : component) (ty : string) :
  aligned c →
  (c.1 = [] → Cc_with_type_init c ty = Raise ValueError) ∧
  (c.1 ≠ [] → ∃ d, Cc_with_type_init c ty = OK d).
Proof.
  destruct c as [rows cols]. unfold aligned. simpl. intros Hlen. split.
  - intros ->. by destruct cols.
  - intros Hne.
    assert (Hc : cols ≠ []) by (destruct rows, cols; (done || discriminate)).
    destruct (Cc_with_type_init_spec (rows, cols) ty Hlen Hc) as (d & _ & _ & Hd & _).
    by exists d.
Qed.

(** X7. On components with index arrays of equal length the two list
    comprehensions never raise: [all_ccs] holds one descriptor for every
    component of more than 10 pixels, in the order of the input, the
    baseline descriptors before the border descriptors, each with its
    tag. *)
Theorem all_ccs_of_aligned (baseline_ccs baseline_border_ccs : list component) :
  Forall aligned baseline_ccs → Forall aligned baseline_border_ccs →
  ∃ all_ccs,
    all_ccs_of baseline_ccs baseline_border_ccs = OK all_ccs ∧
    cc <$> all_ccs
    = filter (fun x : component => (10 < length x.1)%nat) baseline_ccs
      ++ filter (fun x : component => (10 < length x.1)%nat) baseline_border_ccs ∧
    type <$> all_ccs
    = replicate (length (filter (fun x : component => (10 < length x.1)%nat)
                                baseline_ccs)) "baseline"
      ++ replicate (length (filter (fun x : component => (10 < length x.1)%nat)
                                   baseline_border_ccs)) "baseline_border".
Proof.
  assert (Hmk : ∀ ty ccs, Forall aligned ccs →
    ∃ ds, make_descriptors ty ccs = OK ds ∧
          Forall2 (fun c d => cc d = c ∧ type d = ty)
                  (filter (fun x : component => (10 < length x.1)%nat) ccs) ds).
  { intros ty ccs Hal. unfold make_descriptors. apply mapM_all_OK.
    apply Forall_forall. intros c Hc. apply list_elem_of_filter in Hc as [Hlen Hc].
    pose proof (proj1 (Forall_forall _ _) Hal c Hc) as Hac.
    assert (Hne : c.2 ≠ []).
    { unfold aligned in Hac. destruct c as [[|] [|]]; simpl in *; (done || lia). }
    destruct (Cc_with_type_init_spec c ty Hac Hne) as (d & _ & _ & Hd & Hcc & Hty & _).
    by exists d. }
  assert (Hcc : ∀ ty (l : list component) ds,
    Forall2 (fun c d => cc d = c ∧ type d = ty) l ds →
    cc <$> ds = l ∧ type <$> ds = replicate (length l) ty).
  { intros ty l ds H. induction H as [|c d l ds [<- <-] _ [IH1 IH2]]; [done|].
    by rewrite !fmap_cons, IH1, IH2. }
  intros Hb Hbb.
  destruct (Hmk "baseline" _ Hb) as (b & Eb & Fb).
  destruct (Hmk "baseline_border" _ Hbb) as (bb & Ebb & Fbb).
  exists (b ++ bb). unfold all_ccs_of. rewrite Eb, Ebb. split; [done|].
  rewrite !fmap_app.
  destruct (Hcc _ _ _ Fb) as [-> ->]. by destruct (Hcc _ _ _ Fbb) as [-> ->].
Qed.

(** X8. For descriptors built by the constructor, [left(x, y)] is
    [right(y, x)], and [left(x, y)] and [right(x, y)] never hold together,
    so the order of the [if] / [elif] does not matter. *)
Theorem left_right_exclusive_built
    (cx cy : component) (tx ty : string) (x y : Cc_with_type) :
  Cc_with_type_init cx tx = OK x → Cc_with_type_init cy ty = OK y →
  left_of x y = right_of y x ∧
  ¬ (left_of x y = true ∧ right_of x y = true).
Proof.
  intros Hx Hy.
  apply Cc_with_type_init_ordered in Hx as [Hx _].
  apply Cc_with_type_init_ordered in Hy as [Hy _].
  split; [apply left_of_right_of|].
  intros [Hl Hr]. by rewrite (left_right_exclusive x y Hx Hy Hl) in Hr.
Qed.

(** ** The distance matrix: shape, sign and the radius of the clusterer *)

Lemma raw_distance_pos (x y : Cc_with_type) : 0 < raw_distance 50 x y.
Proof.
  rewrite raw_distance_50. unfold left_of, right_of.
  destruct x as [? [xlr xlc] [xrr xrc] ?], y as [? [ylr ylc] [yrr yrc] ?]. simpl.
  ltb_cases; lia.
Qed.

(** X9. The matrix is square: as many rows as descriptors and every row
    as long, so an entry is missing exactly when an index is out of
    range. *)
Theorem calculate_distance_matrix_square (ccs : list Cc_with_type) (length : Z) :
  Datatypes.length (calculate_distance_matrix ccs length) = Datatypes.length ccs ∧
  Forall (fun row => Datatypes.length row = Datatypes.length ccs)
         (calculate_distance_matrix ccs length) ∧
  (∀ i j, entry (calculate_distance_matrix ccs length) i j = None
          ↔ (Datatypes.length ccs ≤ i ∨ Datatypes.length ccs ≤ j)%nat).
Proof.
  rewrite calculate_distance_matrix_imap. split; [by rewrite length_imap|]. split.
  - apply Forall_forall. intros row Hrow.
    apply list_elem_of_lookup in Hrow as [i Hi].
    rewrite list_lookup_imap in Hi.
    destruct (ccs !! i) as [x|]; [|done]. simpl in Hi.
    injection Hi as <-. by rewrite length_imap.
  - intros i j. unfold entry. rewrite list_lookup_imap.
    destruct (ccs !! i) as [x|] eqn:Hx; simpl.
    + rewrite list_lookup_imap.
      apply lookup_lt_Some in Hx.
      destruct (ccs !! j) as [y|] eqn:Hy; simpl.
      * apply lookup_lt_Some in Hy. split; [done | lia].
      * apply lookup_ge_None in Hy. split; [by right | done].
    + apply lookup_ge_None in Hx. split; [by left | done].
Qed.

(** X10. No entry is negative, and an entry is zero exactly on the
    diagonal: distinct descriptors are never at distance 0. *)
Theorem entry_zero_iff_diagonal
    (ccs : list Cc_with_type) (i j : nat) (x y : Cc_with_type) :
  ccs !! i = Some x → ccs !! j = Some y →
  ∃ v, entry (calculate_distance_matrix ccs 50) i j = Some v ∧
       0 ≤ v ∧ (v = 0 ↔ i = j).
Proof.
  intros Hx Hy. rewrite (calculate_distance_matrix_entry ccs 50 i j x y Hx Hy).
  eexists. split; [reflexivity|]. unfold cell.
  pose proof (raw_distance_pos x y). pose proof (same_type_pos x y).
  destruct (Nat.eqb_spec i j); [done|]. split; [nia|]. split; [nia | done].
Qed.

(** X11. The entry of two descriptors of different types is 100 times
    their raw distance, hence above the radius [eps = 50] of the
    clusterer. *)
Theorem different_types_beyond_eps
    (ccs : list Cc_with_type) (i j : nat) (x y : Cc_with_type) :
  ccs !! i = Some x → ccs !! j = Some y → i ≠ j → type x ≠ type y →
  ∃ v, entry (calculate_distance_matrix ccs 50) i j = Some v ∧
       v = 100 * raw_distance 50 x y ∧ 50 < v.
Proof.
  intros Hx Hy Hne Hty.
  rewrite (calculate_distance_matrix_entry ccs 50 i j x y Hx Hy).
  eexists. split; [reflexivity|]. unfold cell, same_type.
  rewrite (proj2 (Nat.eqb_neq i j) Hne), (proj2 (String.eqb_neq _ _) Hty).
  pose proof (raw_distance_pos x y). lia.
Qed.

(** X12. An off-diagonal entry within the radius [eps = 50] relates two
    descriptors of the same type with disjoint horizontal spans, a gap of at
    most 50 columns and a vertical offset of at most 9 rows (in the right-of
    branch: one of the two offsets it tests). *)
Theorem within_eps_inv
    (ccs : list Cc_with_type) (i j : nat) (x y : Cc_with_type) (v : Z) :
  ccs !! i = Some x → ccs !! j = Some y → i ≠ j →
  entry (calculate_distance_matrix ccs 50) i j = Some v → v ≤ 50 →
  type x = type y ∧
  ((left_of x y = true ∧
    (cc_left x).2 - (cc_right y).2 ≤ 50 ∧
    Z.abs ((cc_left x).1 - (cc_right y).1) ≤ 9)
   ∨
   (left_of x y = false ∧ right_of x y = true ∧
    (cc_left y).2 - (cc_right x).2 ≤ 50 ∧
    (Z.abs ((cc_left x).1 - (cc_right y).1) ≤ 9 ∨
     Z.abs ((cc_right x).1 - (cc_left y).1) ≤ 9))).
Proof.
  intros Hx Hy Hne.
  rewrite (calculate_distance_matrix_entry ccs 50 i j x y Hx Hy).
  unfold cell. rewrite (proj2 (Nat.eqb_neq i j) Hne). intros [= <-].
  pose proof (raw_distance_pos x y) as Hpos.
  unfold same_type. destruct (String.eqb_spec (type x) (type y)) as [Hty|Hty]; [|lia].
  rewrite Z.mul_1_r. intros Hv. split; [done|].
  revert Hv. rewrite raw_distance_50. unfold left_of, right_of, tolerance_ceiling.
  destruct x as [? [xlr xlc] [xrr xrc] ?], y as [? [ylr ylc] [yrr yrc] ?]. simpl.
  ltb_cases; intros Hv; try lia.
  all: first [left; split; [done | lia] | right; repeat split; (done || lia)].
Qed.

(** X13. When [x] is left-of [y], the mirrored entry [(y, x)] is never
    larger than the entry [(x, y)]: they are equal or differ by the penalty
    [5 * |x.cc_left[0] - y.cc_right[0]|] times the type factor. *)
Theorem mirrored_entry_le
    (ccs : list Cc_with_type) (i j : nat) (x y : Cc_with_type) :
  ccs !! i = Some x → ccs !! j = Some y → i ≠ j →
  spans_ordered x → spans_ordered y → left_of x y = true →
  ∃ v w, entry (calculate_distance_matrix ccs 50) i j = Some v ∧
         entry (calculate_distance_matrix ccs 50) j i = Some w ∧
         w ≤ v ∧
         (v = w ∨
          v = w + 5 * Z.abs ((cc_left x).1 - (cc_right y).1) * same_type x y).
Proof.
  intros Hx Hy Hne Hox Hoy Hl.
  rewrite (calculate_distance_matrix_entry ccs 50 i j x y Hx Hy).
  rewrite (calculate_distance_matrix_entry ccs 50 j i y x Hy Hx).
  eexists _, _. split; [reflexivity|]. split; [reflexivity|].
  unfold cell. rewrite (proj2 (Nat.eqb_neq i j) Hne).
  rewrite (proj2 (Nat.eqb_neq j i)) by congruence.
  rewrite (same_type_sym y x). pose proof (same_type_pos x y) as Hpos.
  revert Hl Hox Hoy. rewrite !raw_distance_50.
  unfold left_of, right_of, spans_ordered, tolerance_ceiling.
  generalize (same_type x y) Hpos. intros t Ht.
  destruct x as [? [xlr xlc] [xrr xrc] ?], y as [? [ylr ylc] [yrr yrc] ?]. simpl.
  intros Hl Hox Hoy. revert Hl.
  ltb_cases; intros Hl; try done; try lia; split; (nia || (try (left; nia)); try (right; nia)).
Qed.

Lemma Zltb_add_r (a b d : Z) : (a + d <? b + d) = (a <? b).
Proof. destruct (Z.ltb_spec (a + d) (b + d)), (Z.ltb_spec a b); (done || lia). Qed.

Lemma raw_distance_shift (length dr dc : Z) (x y : Cc_with_type) :
  raw_distance length (shift_descriptor dr dc x) (shift_descriptor dr dc y)
  = raw_distance length x y.
Proof.
  unfold raw_distance, left_of, right_of, shift_descriptor. simpl.
  rewrite !Z.gtb_ltb, !Zltb_add_r.
  replace ((cc_left x).2 + dc - ((cc_right y).2 + dc))
    with ((cc_left x).2 - (cc_right y).2) by lia.
  replace ((cc_left y).2 + dc - ((cc_right x).2 + dc))
    with ((cc_left y).2 - (cc_right x).2) by lia.
  replace ((cc_left x).1 + dr - ((cc_right y).1 + dr))
    with ((cc_left x).1 - (cc_right y).1) by lia.
  replace ((cc_right x).1 + dr - ((cc_left y).1 + dr))
    with ((cc_right x).1 - (cc_left y).1) by lia.
  replace ((cc_left y).1 + dr - ((cc_right x).1 + dr))
    with ((cc_left y).1 - (cc_right x).1) by lia.
  done.
Qed.

Lemma calculate_distance_matrix_shift
    (ccs : list Cc_with_type) (length dr dc : Z) :
  calculate_distance_matrix (shift_descriptor dr dc <$> ccs) length
  = calculate_distance_matrix ccs length.
Proof.
  rewrite !calculate_distance_matrix_imap, imap_fmap.
  apply imap_ext. intros i x _. simpl. rewrite imap_fmap.
  apply imap_ext. intros j y _. simpl.
  unfold cell. by rewrite raw_distance_shift.
Qed.

(** ** Grouping the descriptors by label *)

Lemma np_unique_spec (a : list Z) :
  NoDup (np_unique a) ∧ (∀ x, x ∈ np_unique a ↔ x ∈ a).
Proof.
  unfold np_unique. split.
  - rewrite merge_sort_Permutation. apply NoDup_remove_dups.
  - intros x. rewrite merge_sort_Permutation. apply elem_of_remove_dups.
Qed.

Lemma collect_line (x : Z) (labels : list Z) (pre rest : list Cc_with_type) :
  length rest = length labels →
  mapM (fun d => cc <$> getitem (pre ++ rest) d) (where_from (length pre) labels x)
  = OK (cc <$> (filter (fun p : Z * Cc_with_type => p.1 = x) (zip labels rest)).*2).
Proof.
  revert pre rest. induction labels as [|u labels IH]; intros pre rest Hlen.
  - by destruct rest.
  - destruct rest as [|r rest]; [done|]. simpl in Hlen.
    assert (Hnext : mapM (fun d => cc <$> getitem (pre ++ r :: rest) d)
                         (where_from (S (length pre)) labels x)
                    = OK (cc <$> (filter (fun p : Z * Cc_with_type => p.1 = x)
                                          (zip labels rest)).*2)).
    { specialize (IH (pre ++ [r]) rest ltac:(lia)).
      rewrite <- app_assoc, length_app in IH. simpl in IH.
      by rewrite Nat.add_1_r in IH. }
    cbn [where_from zip zip_with]. rewrite filter_cons. cbn [fst].
    destruct (decide (u = x)) as [Hu|Hu].
    + cbn [mapM].
      rewrite (getitem_lookup (pre ++ r :: rest) (length pre) r)
        by (by apply list_lookup_middle).
      cbn. by rewrite Hnext.
    + done.
Qed.

Lemma members_nonempty (all_ccs : list Cc_with_type) (labels : list Z) (x : Z) :
  length labels = length all_ccs → x ∈ labels → members all_ccs labels x ≠ [].
Proof.
  revert all_ccs. induction labels as [|u labels IH]; intros all_ccs Hlen Hin.
  - by apply elem_of_nil in Hin.
  - destruct all_ccs as [|d all_ccs]; [done|]. simpl in Hlen.
    unfold members. cbn [zip zip_with]. rewrite filter_cons. cbn [fst].
    destruct (decide (u = x)) as [Hu|Hu]; [done|].
    apply elem_of_cons in Hin as [->|Hin]; [done|].
    apply (IH all_ccs); [lia | done].
Qed.

Lemma collect_members (all_ccs : list Cc_with_type) (labels : list Z) (x : Z) :
  length labels = length all_ccs → x ∈ labels →
  collect all_ccs labels x = OK (merge_components (members all_ccs labels x)).
Proof.
  intros Hlen Hin. unfold collect, np_where_eq. cbv zeta.
  pose proof (collect_line x labels [] all_ccs (eq_sym Hlen)) as Hline.
  simpl in Hline. rewrite Hline. cbn [mbind result_bind].
  pose proof (members_nonempty all_ccs labels x Hlen Hin) as Hne.
  unfold members in *.
  destruct ((filter (fun p : Z * Cc_with_type => p.1 = x) (zip labels all_ccs)).*2)
    as [|d g] eqn:Hg; [done|].
  unfold merge_components. rewrite <- !list_fmap_compose. done.
Qed.

Lemma filter_elem_of_cons {V} (x : Z) (xs : list Z) (l : list (Z * V)) :
  x ∉ xs →
  filter (fun p : Z * V => p.1 ∈ x :: xs) l
  ≡ₚ filter (fun p : Z * V => p.1 = x) l ++ filter (fun p : Z * V => p.1 ∈ xs) l.
Proof.
  intros Hx. induction l as [|p l IH]; [done|].
  rewrite !filter_cons.
  destruct (decide (p.1 = x)) as [Hp|Hp].
  - rewrite decide_True by (rewrite Hp; constructor).
    rewrite decide_False by (by rewrite Hp). simpl. by rewrite IH.
  - destruct (decide (p.1 ∈ xs)) as [Hin|Hin].
    + rewrite decide_True by (by constructor). rewrite IH.
      apply Permutation_middle.
    + rewrite decide_False; [done|].
      intros H. apply elem_of_cons in H as [?|?]; done.
Qed.

Lemma filter_all {X} (P : X → Prop) `{∀ x, Decision (P x)} (l : list X) :
  (∀ x, x ∈ l → P x) → filter P l = l.
Proof.
  induction l as [|x l IH]; intros Hall; [done|].
  rewrite filter_cons, decide_True by (apply Hall; constructor).
  f_equal. apply IH. intros y Hy. apply Hall. by constructor.
Qed.

Lemma group_by_key {V} (xs : list Z) (l : list (Z * V)) :
  NoDup xs →
  concat ((fun x => filter (fun p : Z * V => p.1 = x) l) <$> xs)
  ≡ₚ filter (fun p : Z * V => p.1 ∈ xs) l.
Proof.
  induction 1 as [|x xs Hx _ IH]; simpl.
  - induction l as [|p l IHl]; [done|]. rewrite filter_cons.
    rewrite decide_False; [done|]. apply not_elem_of_nil.
  - rewrite IH. symmetry. by apply filter_elem_of_cons.
Qed.

Lemma members_partition (all_ccs : list Cc_with_type) (labels : list Z) :
  length labels = length all_ccs →
  concat (members all_ccs labels <$> np_unique labels) ≡ₚ all_ccs.
Proof.
  intros Hlen. destruct (np_unique_spec labels) as [Hnd Hel].
  assert (Hc : ∀ xs, concat (members all_ccs labels <$> xs)
               = (concat ((fun x => filter (fun p : Z * Cc_with_type => p.1 = x)
                                           (zip labels all_ccs)) <$> xs)).*2).
  { unfold members. induction xs as [|x xs IH]; [done|].
    rewrite !fmap_cons. cbn [concat]. rewrite fmap_app. by f_equal. }
  rewrite Hc, (group_by_key _ _ Hnd).
  assert (Hall : filter (fun p : Z * Cc_with_type => p.1 ∈ np_unique labels)
                        (zip labels all_ccs) = zip labels all_ccs).
  { apply filter_all. intros [u d] Hp. apply Hel. by apply elem_of_zip_l in Hp. }
  rewrite Hall, snd_zip by lia. done.
Qed.

Lemma group_by_label_all (all_ccs : list Cc_with_type) (labels : list Z) :
  length labels = length all_ccs →
  mapM (collect all_ccs labels) (np_unique labels)
  = OK (merge_components <$> (members all_ccs labels <$> np_unique labels)) ∧
  concat (members all_ccs labels <$> np_unique labels) ≡ₚ all_ccs ∧
  Forall (fun g => g ≠ []) (members all_ccs labels <$> np_unique labels).
Proof.
  intros Hlen. destruct (np_unique_spec labels) as [_ Hel].
  split; [|split].
  - assert (Hgen : ∀ xs, (∀ x, x ∈ xs → x ∈ labels) →
       mapM (collect all_ccs labels) xs
       = OK (merge_components <$> (members all_ccs labels <$> xs))).
    { induction xs as [|x xs IH]; intros Hsub; [done|].
      cbn [mapM]. rewrite (collect_members all_ccs labels x Hlen)
        by (apply Hsub; constructor).
      cbn [mbind result_bind]. rewrite IH; [done|].
      intros y Hy. apply Hsub. by constructor. }
    apply Hgen. intros x Hx. by apply Hel.
  - by apply members_partition.
  - apply Forall_fmap, Forall_forall. intros x Hx. simpl.
    apply members_nonempty; [done | by apply Hel].
Qed.

(** X15. With one label per descriptor the loop of lines 387-392 does not
    raise: it builds one cluster per distinct label, in ascending order of
    the labels, each the concatenation of the pixel arrays of the
    descriptors with that label; no cluster is empty and every descriptor
    is in exactly one cluster. *)
Theorem group_by_label (all_ccs : list Cc_with_type) (labels : list Z) :
  length labels = length all_ccs →
  StronglySorted Z.lt (np_unique labels) ∧
  mapM (collect all_ccs labels) (np_unique labels)
  = OK (merge_components <$> (members all_ccs labels <$> np_unique labels)) ∧
  concat (members all_ccs labels <$> np_unique labels) ≡ₚ all_ccs ∧
  Forall (fun g => g ≠ []) (members all_ccs labels <$> np_unique labels).
Proof.
  intros Hlen. split; [|by apply group_by_label_all].
  apply StronglySorted_le_lt; [|apply np_unique_spec].
  unfold np_unique. apply StronglySorted_merge_sort; apply _.
Qed.

(** ** The outcome of [extract_baselines] *)

Lemma zip_line_394_TypeError (x : component) :
  (2 ≤ length x.2)%nat → zip_line_394 x = Raise TypeError.
Proof.
  destruct x as [rows [|c0 [|c1 cols]]]; simpl; intros H; (done || lia).
Qed.


Section Outcome.
Variable DBSCAN_labels : list (list Z) → result (list Z).

(** X16. Whenever at least one component survives the size filter and the
    clusterer returns one label per descriptor, [extract_baselines] ends in
    [TypeError] at line 394, where [zip] is applied to two integer
    scalars. *)
Theorem extract_baselines_TypeError
    (baseline_ccs baseline_border_ccs : list component)
    (all_ccs : list Cc_with_type) (labels : list Z) :
  Forall aligned baseline_ccs → Forall aligned baseline_border_ccs →
  all_ccs_of baseline_ccs baseline_border_ccs = OK all_ccs → all_ccs ≠ [] →
  DBSCAN_labels (calculate_distance_matrix all_ccs 50) = OK labels →
  length labels = length all_ccs →
  extract_baselines DBSCAN_labels baseline_ccs baseline_border_ccs = Raise TypeError.
Proof.
  intros Hb Hbb Hall Hne Hlab Hlen.
  unfold extract_baselines, clusters_of. rewrite Hall. cbn [mbind result_bind].
  rewrite Hlab. cbn [mbind result_bind].
  destruct (group_by_label_all all_ccs labels Hlen) as (Hgroups & Hperm & Hnonempty).
  rewrite Hgroups. cbn [mbind result_bind].
  destruct (np_unique_spec labels) as [_ Hel].
  destruct (np_unique labels) as [|x xs] eqn:Hu.
  { destruct labels as [|u labels]; [by destruct all_ccs|].
    assert (u ∈ []) as Hin by (apply Hel; constructor). by apply elem_of_nil in Hin. }
  rewrite !fmap_cons in *. cbn [mapM].
  apply Forall_cons in Hnonempty as [Hg _].
  destruct (members all_ccs labels x) as [|d g] eqn:Hm; [done|].
  assert (Hd : d ∈ all_ccs).
  { rewrite <- Hperm. cbn [concat]. apply elem_of_app. left. constructor. }
  apply all_ccs_of_spec in Hall.
  pose proof (proj1 (Forall_forall _ _) Hall d Hd) as (_ & Hbig & Hsrc).
  assert (Hal : aligned (cc d)).
  { destruct Hsrc as [Hsrc|Hsrc];
      [exact (proj1 (Forall_forall _ _) Hb _ Hsrc)
      |exact (proj1 (Forall_forall _ _) Hbb _ Hsrc)]. }
  rewrite zip_line_394_TypeError; [done|].
  unfold merge_components. cbn [snd fmap list_fmap concat].
  rewrite length_app. unfold aligned in Hal. lia.
Qed.


End Outcome.

Lemma extract_baselines_TypeError_witness :
  Forall aligned [run_row0; hook] ∧ Forall aligned [run_row1] ∧
  all_ccs_of [run_row0; hook] [run_row1] = OK [d_run0; d_hook; d_border1] ∧
  [d_run0; d_hook; d_border1] ≠ [] ∧
  one_cluster (calculate_distance_matrix [d_run0; d_hook; d_border1] 50) = OK [0; 0; 0] ∧
  length [0; 0; 0] = length [d_run0; d_hook; d_border1] ∧
  extract_baselines one_cluster [run_row0; hook] [run_row1] = Raise TypeError.
Proof.
  assert (H1 : Forall aligned [run_row0; hook]) by (repeat constructor).
  assert (H2 : Forall aligned [run_row1]) by (repeat constructor).
  assert (H3 : all_ccs_of [run_row0; hook] [run_row1] = OK [d_run0; d_hook; d_border1]).
  { vm_compute. reflexivity. }
  assert (H4 : one_cluster (calculate_distance_matrix [d_run0; d_hook; d_border1] 50)
               = OK [0; 0; 0]).
  { vm_compute. reflexivity. }
  do 6 (split; [first [assumption | discriminate | reflexivity]|]).
  exact (extract_baselines_TypeError one_cluster _ _ _ _ H1 H2 H3
           ltac:(discriminate) H4 eq_refl).
Defined.


(** ** [normalize_connected_components]: what the result depends on *)

Lemma normalize_cc_alt (cc : list (Z * Z)) :
  normalize_cc cc
  = (fun key => (Qfloor (np_mean (rows_at key cc) + 1 / 2)%Q, key))
    <$> sorted_keys (foldl add_point ∅ cc).
Proof.
  unfold normalize_cc. cbv zeta. apply list_fmap_ext. intros _ key _.
  rewrite cc_dict_lookup. by destruct (rows_at key cc).
Qed.

(** The sorted keys of the dictionary are determined by the set of
    columns. *)
Lemma sorted_keys_unique (cc : list (Z * Z)) (ks : list Z) :
  Sorted Z.le ks → NoDup ks → (∀ c, c ∈ ks ↔ c ∈ cc.*2) →
  sorted_keys (foldl add_point ∅ cc) = ks.
Proof.
  intros Hs Hnd Hel. unfold sorted_keys.
  apply (Sorted_unique Z.le).
  - apply Sorted_merge_sort. apply _.
  - done.
  - rewrite merge_sort_Permutation. apply NoDup_Permutation.
    + apply NoDup_fst_map_to_list.
    + done.
    + intros c. by rewrite cc_dict_keys, Hel.
Qed.

Lemma sorted_keys_sorted (cc : list (Z * Z)) :
  Sorted Z.le (sorted_keys (foldl add_point ∅ cc)) ∧
  NoDup (sorted_keys (foldl add_point ∅ cc)) ∧
  (∀ c, c ∈ sorted_keys (foldl add_point ∅ cc) ↔ c ∈ cc.*2).
Proof.
  unfold sorted_keys. split; [|split].
  - apply Sorted_merge_sort. apply _.
  - rewrite merge_sort_Permutation. apply NoDup_fst_map_to_list.
  - intros c. by rewrite merge_sort_Permutation, cc_dict_keys.
Qed.

Lemma Zsum_Permutation (l k : list Z) : l ≡ₚ k → Zsum l = Zsum k.
Proof. unfold Zsum. induction 1; simpl; lia. Qed.

Lemma np_mean_Permutation (l k : list Z) : l ≡ₚ k → np_mean l = np_mean k.
Proof.
  intros H. unfold np_mean.
  by rewrite (Zsum_Permutation l k H), (Permutation_length H).
Qed.

(** X18. The normalized curve of a cluster does not depend on the order
    of its pixels. *)
Theorem normalize_Permutation (cc cc' : list (Z * Z)) :
  cc ≡ₚ cc' → normalize_cc cc = normalize_cc cc'.
Proof.
  intros Hp. rewrite !normalize_cc_alt.
  destruct (sorted_keys_sorted cc') as (Hs & Hnd & Hel).
  rewrite (sorted_keys_unique cc _ Hs Hnd).
  2:{ intros c. rewrite Hel. by rewrite Hp. }
  apply list_fmap_ext. intros _ key _. cbv beta.
  rewrite (np_mean_Permutation (rows_at key cc) (rows_at key cc')); [done|].
  unfold rows_at. by rewrite Hp.
Qed.

Lemma round_single (v : Z) : Qfloor (np_mean [v] + 1 / 2)%Q = v.
Proof.
  assert (H : v ≤ Qfloor (np_mean [v] + 1 / 2)%Q ≤ v); [|lia].
  apply round_mean_bounds; [done|].
  intros y Hy. apply list_elem_of_singleton in Hy. lia.
Qed.

Lemma rows_at_keyed (f : Z → Z) (ks : list Z) (c : Z) :
  NoDup ks → c ∈ ks → rows_at c ((fun k => (f k, k)) <$> ks) = [f c].
Proof.
  unfold rows_at. induction 1 as [|k ks Hk Hnd IH]; intros Hc.
  - by apply elem_of_nil in Hc.
  - rewrite fmap_cons, filter_cons. simpl.
    destruct (decide (k = c)) as [->|Hne].
    + rewrite fmap_cons. simpl. f_equal.
      clear IH Hc Hnd. induction ks as [|k' ks IH]; [done|].
      rewrite fmap_cons, filter_cons. simpl.
      rewrite decide_False by (intros ->; apply Hk; constructor).
      apply IH. intros Hin. apply Hk. by constructor.
    + apply IH. apply elem_of_cons in Hc as [?|?]; [congruence | done].
Qed.

(** X19. Normalization is idempotent. *)
Theorem normalize_idempotent (cc_list : list (list (Z * Z))) :
  normalize_connected_components (normalize_connected_components cc_list)
  = normalize_connected_components cc_list.
Proof.
  unfold normalize_connected_components, normalize.
  rewrite <- list_fmap_compose. apply list_fmap_ext. intros _ cc _. simpl.
  destruct (sorted_keys_sorted cc) as (Hs & Hnd & Hel).
  rewrite (normalize_cc_alt (normalize_cc cc)).
  rewrite (sorted_keys_unique (normalize_cc cc) _ Hs Hnd).
  2:{ intros c. by rewrite normalize_cc_columns_eq. }
  etrans; [|symmetry; apply normalize_cc_alt].
  apply list_fmap_ext. intros i key Hkey. cbv beta. f_equal.
  rewrite (normalize_cc_alt cc), rows_at_keyed.
  - apply round_single.
  - done.
  - by eapply list_elem_of_lookup_2.
Qed.

(** X20. A cluster with one pixel per column is only sorted by column:
    the normalized curve holds exactly the pixels of the cluster. *)
Theorem normalize_thin_curve (cc : list (Z * Z)) :
  NoDup cc.*2 →
  normalize_cc cc ≡ₚ cc ∧ StronglySorted Z.lt (normalize_cc cc).*2.
Proof.
  intros Hnd.
  assert (Hone : ∀ y c, (y, c) ∈ cc → rows_at c cc = [y]).
  { clear -Hnd. induction cc as [|[y' c'] cc IH]; intros y c Hin.
    - by apply elem_of_nil in Hin.
    - rewrite fmap_cons in Hnd. apply NoDup_cons in Hnd as [Hc' Hnd].
      unfold rows_at in *. rewrite filter_cons. simpl.
      apply elem_of_cons in Hin as [[= -> ->]|Hin].
      + rewrite decide_True by done. rewrite fmap_cons. simpl. f_equal.
        destruct (filter (fun p : Z * Z => p.2 = c') cc) as [|[y0 c0] l] eqn:Hf; [done|].
        assert ((y0, c0) ∈ filter (fun p : Z * Z => p.2 = c') cc) as Hel
          by (rewrite Hf; constructor).
        apply list_elem_of_filter in Hel as [Heq Hel]. simpl in Heq. subst c0.
        destruct Hc'. apply list_elem_of_fmap. by exists (y0, c').
      + rewrite decide_False.
        * by apply IH.
        * intros ->. apply Hc'. apply list_elem_of_fmap. by exists (y, c). }
  split.
  - apply NoDup_Permutation.
    + eapply NoDup_fmap_1. rewrite normalize_cc_columns_eq.
      apply sorted_keys_sorted.
    + by eapply NoDup_fmap_1.
    + intros [v c]. split.
      * intros Hin. pose proof Hin as Hin'.
        apply normalize_cc_sample in Hin as [Hne ->].
        destruct (rows_at c cc) as [|y rs] eqn:Hr; [done|].
        assert (Hy : (y, c) ∈ cc) by (apply elem_of_rows_at; rewrite Hr; constructor).
        rewrite <- Hr, (Hone y c Hy), round_single. done.
      * intros Hin. rewrite normalize_cc_alt.
        apply list_elem_of_fmap. exists c. split.
        -- by rewrite (Hone v c Hin), round_single.
        -- apply sorted_keys_sorted. apply list_elem_of_fmap. by exists (v, c).
  - rewrite normalize_cc_columns_eq. apply sorted_keys_spec.
Qed.

(** X21. [floor(mean + 0.5)] in integers: for [n] rows of sum [s] it is
    [(2 s + n) div (2 n)], so a mean half-way between two rows goes to the
    greater row. *)
Theorem round_mean_integer (value : list Z) :
  value ≠ [] →
  Qfloor (np_mean value + 1 / 2)%Q
  = (2 * Zsum value + Z.of_nat (length value)) / (2 * Z.of_nat (length value)).
Proof.
  destruct value as [|v value]; [done|]. intros _.
  unfold np_mean. generalize (Zsum (v :: value)). intros s.
  change (length (v :: value)) with (S (length value)).
  generalize (length value). intros n.
  rewrite Nat2Z.inj_succ.
  destruct (Z.succ (Z.of_nat n)) as [|p|p] eqn:Hp; [lia| |lia].
  unfold Qfloor, Qplus, Qdiv, Qmult, Qinv. simpl.
  rewrite ?Pos.mul_1_l, ?Pos.mul_1_r, ?Z.mul_1_r.
  f_equal; lia.
Qed.

Lemma round_mean_integer_witness :
  rows_3_4 ≠ [] ∧
  Qfloor (np_mean rows_3_4 + 1 / 2)%Q
  = (2 * Zsum rows_3_4 + Z.of_nat (length rows_3_4)) / (2 * Z.of_nat (length rows_3_4)) ∧
  Qfloor (np_mean rows_3_4 + 1 / 2)%Q = 4.
Proof.
  split; [discriminate|].
  split; [exact (round_mean_integer rows_3_4 ltac:(discriminate)) | reflexivity].
Defined.

(** ** Moving the mask *)

Lemma foldl_min_shift (d v : Z) (a : list Z) :
  foldl Z.min (v + d) ((fun u => u + d) <$> a) = foldl Z.min v a + d.
Proof.
  revert v. induction a as [|u a IH]; intros v; [done|].
  rewrite fmap_cons. simpl. rewrite <- IH. f_equal. lia.
Qed.

Lemma foldl_max_shift (d v : Z) (a : list Z) :
  foldl Z.max (v + d) ((fun u => u + d) <$> a) = foldl Z.max v a + d.
Proof.
  revert v. induction a as [|u a IH]; intros v; [done|].
  rewrite fmap_cons. simpl. rewrite <- IH. f_equal. lia.
Qed.

Lemma where_from_shift (d v : Z) (k : nat) (a : list Z) :
  where_from k ((fun u => u + d) <$> a) (v + d) = where_from k a v.
Proof.
  revert k. induction a as [|u a IH]; intros k; [done|].
  rewrite fmap_cons. simpl. rewrite IH.
  destruct (decide (u + d = v + d)), (decide (u = v)); (done || lia).
Qed.

Lemma getitem_fmap {X Y} (f : X → Y) (a : list X) (i : nat) :
  getitem (f <$> a) i = f <$> getitem a i.
Proof. unfold getitem. rewrite list_lookup_fmap. by destruct (a !! i). Qed.

Lemma first_at_shift (d : Z) (a : list Z) (idx : list nat) :
  take_indices ((fun u => u + d) <$> a) idx ≫= (fun b => getitem b 0%nat)
  = (fun u => u + d) <$> (take_indices a idx ≫= (fun b => getitem b 0%nat)).
Proof.
  assert (H : take_indices ((fun u => u + d) <$> a) idx
              = fmap (M:=list) (fun u => u + d) <$> take_indices a idx).
  { unfold take_indices. induction idx as [|i idx IH]; [done|].
    cbn [mapM]. rewrite IH, getitem_fmap.
    destruct (getitem a i); [|done]. cbn.
    by destruct (mapM (getitem a) idx). }
  rewrite H. destruct (take_indices a idx) as [[|v vs]|e]; done.
Qed.

Lemma Cc_with_type_init_shift (dr dc : Z) (c : component) (ty : string) :
  Cc_with_type_init (shift_component dr dc c) ty
  = shift_descriptor dr dc <$> Cc_with_type_init c ty.
Proof.
  destruct c as [rows cols]. unfold Cc_with_type_init, shift_component.
  cbn [fst snd].
  destruct cols as [|c0 cols]; [done|].
  rewrite fmap_cons. cbn [py_min py_max].
  rewrite foldl_min_shift, foldl_max_shift. cbn [mbind result_bind].
  rewrite <- (fmap_cons (fun c => c + dc) c0 cols).
  unfold np_where_eq. rewrite !where_from_shift, !first_at_shift.
  destruct (take_indices rows (where_from 0 (c0 :: cols) (foldl Z.min c0 cols))
            ≫= _) as [l0|e]; [|done].
  cbn [fmap result_fmap mbind result_bind].
  destruct (take_indices (c0 :: cols) (where_from 0 (c0 :: cols) (foldl Z.min c0 cols))
            ≫= _) as [l1|e]; [|done].
  cbn [fmap result_fmap mbind result_bind].
  destruct (take_indices rows (where_from 0 (c0 :: cols) (foldl Z.max c0 cols))
            ≫= _) as [r0|e]; [|done].
  cbn [fmap result_fmap mbind result_bind].
  destruct (take_indices (c0 :: cols) (where_from 0 (c0 :: cols) (foldl Z.max c0 cols))
            ≫= _) as [r1|e]; [|done].
  done.
Qed.

Lemma make_descriptors_shift (dr dc : Z) (ty : string) (ccs : list component) :
  make_descriptors ty (shift_component dr dc <$> ccs)
  = fmap (M:=list) (shift_descriptor dr dc) <$> make_descriptors ty ccs.
Proof.
  unfold make_descriptors. induction ccs as [|c ccs IH]; [done|].
  rewrite fmap_cons, !filter_cons.
  assert (Hlen : length (shift_component dr dc c).1 = length c.1).
  { unfold shift_component. simpl. apply length_fmap. }
  rewrite Hlen. case_decide.
  - cbn [mapM]. rewrite Cc_with_type_init_shift, IH.
    destruct (Cc_with_type_init c ty); [|done]. cbn.
    by destruct (mapM (fun x : component => Cc_with_type_init x ty)
                      (filter (fun x : component => (10 < length x.1)%nat) ccs)).
  - apply IH.
Qed.

(** X14. Moving every component by the same number of rows and columns
    changes neither the outcome of the descriptor construction nor any entry
    of the matrix. *)
Theorem matrix_of_shift (dr dc : Z) (baseline_ccs baseline_border_ccs : list component) :
  matrix_of (shift_component dr dc <$> baseline_ccs)
            (shift_component dr dc <$> baseline_border_ccs)
  = matrix_of baseline_ccs baseline_border_ccs.
Proof.
  unfold matrix_of, all_ccs_of. rewrite !make_descriptors_shift.
  destruct (make_descriptors "baseline" baseline_ccs) as [b|e]; [|done].
  destruct (make_descriptors "baseline_border" baseline_border_ccs) as [bb|e]; [|done].
  cbn. by rewrite <- fmap_app, calculate_distance_matrix_shift.
Qed.

(** ** Counting in groups: [train] and [plot_list] *)

Lemma succ_div_mod (n k : nat) :
  k ≠ 0%nat →
  (((n + 1) `mod` k = 0 ∧ n `mod` k + 1 = k ∧ (n + 1) `div` k = n `div` k + 1)
   ∨ ((n + 1) `mod` k = n `mod` k + 1 ∧ (n + 1) `mod` k ≠ 0 ∧
      (n + 1) `div` k = n `div` k))%nat.
Proof.
  intros Hk.
  pose proof (Nat.div_mod_eq n k) as Hn.
  pose proof (Nat.mod_upper_bound n k Hk) as Hr.
  destruct (decide (n `mod` k + 1 = k)%nat) as [He|He].
  - left.
    assert (Hq : ((n + 1) `div` k = n `div` k + 1)%nat).
    { symmetry. apply (Nat.div_unique _ _ _ 0%nat); lia. }
    assert (Hm : ((n + 1) `mod` k = 0)%nat).
    { symmetry. apply (Nat.mod_unique _ _ (n `div` k + 1)%nat); lia. }
    done.
  - right.
    assert (Hq : ((n + 1) `div` k = n `div` k)%nat).
    { symmetry. apply (Nat.div_unique _ _ _ (n `mod` k + 1)%nat); lia. }
    assert (Hm : ((n + 1) `mod` k = n `mod` k + 1)%nat).
    { symmetry. apply (Nat.mod_unique _ _ (n `div` k)%nat); lia. }
    split; [done|]. split; [lia | done].
Qed.





Lemma plot_list_rows_spec (n : nat) :
  (n ≤ 4 * plot_list_rows n ∧ 4 * plot_list_rows n < n + 4)%nat.
Proof.
  unfold plot_list_rows, images_per_row.
  set (x := (inject_Z (Z.of_nat n) / inject_Z (Z.of_nat 4))%Q).
  pose proof (Qle_ceiling x) as Hle. pose proof (Qceiling_lt x) as Hlt.
  set (c := Qceiling x) in *. clearbody c.
  unfold x, Qle, Qlt, Qdiv, Qmult, Qinv in Hle, Hlt. simpl in Hle, Hlt.
  lia.
Qed.

Lemma plot_list_loop {A} (rows : nat) (l : list A) :
  foldl (plot_list_step rows) (0%nat, 0%nat, []) l
  = ((length l `mod` 4)%nat, (length l `div` 4)%nat,
     (fun k => if (1 <? rows)%nat then Ax2 (k `div` 4) (k `mod` 4)
               else Ax1 (k `mod` 4)) <$> seq 0 (length l)).
Proof.
  induction l as [|x l IH] using rev_ind; [done|].
  rewrite foldl_app, IH. cbn [foldl]. unfold plot_list_step, images_per_row.
  rewrite length_app. cbn [length].
  rewrite seq_app, fmap_app. cbn [seq fmap list_fmap Nat.add].
  destruct (succ_div_mod (length l) 4 ltac:(lia)) as [(Hm & He & Hq)|(Hm & Hm0 & Hq)].
  - rewrite Hm, Hq, He, Nat.eqb_refl. by rewrite Nat.add_1_r.
  - pose proof (Nat.mod_upper_bound (length l + 1) 4 ltac:(lia)) as Hb.
    rewrite Hq.
    destruct (Nat.eqb_spec (length l `mod` 4 + 1) 4) as [He|He]; [lia|].
    by rewrite Hm.
Qed.

(** X23. [plot_list] puts every image into a cell of its own and never
    indexes [ax] out of range: with more than one row it uses [ax[row, ind]]
    with [row < rows] and [ind < 4], with one row [ax[ind]] with
    [ind < 4]. *)
Theorem plot_list_in_bounds {A} (lsit : list A) :
  length (plot_list lsit) = length lsit ∧
  NoDup (plot_list lsit) ∧
  Forall (fun a => match a with
                   | Ax2 row ind =>
                       (row < plot_list_rows (length lsit) ∧ ind < 4)%nat
                   | Ax1 ind =>
                       (plot_list_rows (length lsit) = 1 ∧ ind < 4)%nat
                   end) (plot_list lsit).
Proof.
  unfold plot_list. cbv zeta. rewrite plot_list_loop. cbn [snd].
  pose proof (plot_list_rows_spec (length lsit)) as [Hlo Hhi].
  split; [by rewrite length_fmap, length_seq|]. split.
  - apply NoDup_fmap_2_strong; [|apply NoDup_seq].
    intros k1 k2 Hk1 Hk2. apply elem_of_seq in Hk1, Hk2.
    pose proof (Nat.div_mod_eq k1 4). pose proof (Nat.div_mod_eq k2 4).
    destruct (Nat.ltb_spec 1 (plot_list_rows (length lsit))).
    + intros Heq.
      assert (E1 := f_equal (fun a => match a with Ax2 r _ => r | Ax1 i => i end) Heq).
      assert (E2 := f_equal (fun a => match a with Ax2 _ i => i | Ax1 i => i end) Heq).
      cbv beta iota in E1, E2. lia.
    + intros Heq.
      assert (E1 := f_equal (fun a => match a with Ax2 r _ => r | Ax1 i => i end) Heq).
      cbv beta iota in E1. assert (length lsit ≤ 4)%nat by lia.
      rewrite !Nat.mod_small in E1 by lia. done.
  - apply Forall_fmap, Forall_forall. intros k Hk. apply elem_of_seq in Hk.
    unfold compose.
    pose proof (Nat.mod_upper_bound k 4 ltac:(lia)).
    pose proof (Nat.div_mod_eq k 4).
    destruct (Nat.ltb_spec 1 (plot_list_rows (length lsit))); split; lia.
Qed.

(** ** The checkpoints of [Network.train] *)

Section TrainingFacts.
Variable test_accuracy : nat → Q.

Lemma checkpoint_inv_run (m : nat) :
  checkpoint_inv test_accuracy m (foldl (Network_train_epoch test_accuracy true) (0%Q, []) (seq 1 m)).
Proof.
  induction m as [|m IH].
  - simpl. split; [done|]. intros e He. lia.
  - rewrite seq_S, foldl_app. cbn [foldl].
    set (st := foldl (Network_train_epoch test_accuracy true) (0%Q, []) (seq 1 m)) in *.
    unfold Network_train_epoch. replace (1 + m)%nat with (S m) by lia.
    unfold checkpoint_inv in *.
    destruct (Qltb st.1 (test_accuracy (S m))) eqn:Hlt.
    + apply Qltb_lt in Hlt. cbn [snd fst]. rewrite last_snoc.
      split; [lia|]. split; [done|].
      destruct (last st.2) as [e|].
      * destruct IH as (He & Hst & Hpos & Hmax & Hfirst). rewrite Hst in Hlt.
        split; [by eapply Qlt_trans|]. split.
        -- intros e' He'. destruct (decide (e' = S m)) as [->|]; [apply Qle_refl|].
           apply Qlt_le_weak. eapply Qle_lt_trans; [apply Hmax; lia | done].
        -- intros e' He'. eapply Qle_lt_trans; [apply Hmax; lia | done].
      * destruct IH as (Hst & Hmax). rewrite Hst in Hlt. simpl in Hlt.
        split; [done|]. split.
        -- intros e' He'. destruct (decide (e' = S m)) as [->|]; [apply Qle_refl|].
           apply Qlt_le_weak. eapply Qle_lt_trans; [apply Hmax; lia | done].
        -- intros e' He'. eapply Qle_lt_trans; [apply Hmax; lia | done].
    + assert (Hge : (test_accuracy (S m) <= st.1)%Q).
      { apply Qnot_lt_le. intros H. apply Qltb_lt in H. congruence. }
      destruct (last st.2) as [e|].
      * destruct IH as (He & Hst & Hpos & Hmax & Hfirst). rewrite Hst in Hge.
        split; [lia|]. split; [done|]. split; [done|]. split; [|done].
        intros e' He'. destruct (decide (e' = S m)) as [->|]; [done|].
        apply Hmax. lia.
      * destruct IH as (Hst & Hmax). rewrite Hst in Hge. simpl in Hge.
        split; [done|].
        intros e' He'. destruct (decide (e' = S m)) as [->|]; [done|].
        apply Hmax. lia.
Qed.

Lemma saved_range (m e : nat) :
  e ∈ (foldl (Network_train_epoch test_accuracy true) (0%Q, []) (seq 1 m)).2 →
  (1 ≤ e ≤ m)%nat.
Proof.
  induction m as [|m IH]; [by intros ?%elem_of_nil|].
  rewrite seq_S, foldl_app. cbn [foldl]. unfold Network_train_epoch at 1.
  replace (1 + m)%nat with (S m) by lia.
  destruct (Qltb _ _).
  - cbn [snd]. intros [Hin|Hin%list_elem_of_singleton]%elem_of_app; [|lia].
    apply IH in Hin. lia.
  - intros Hin. apply IH in Hin. lia.
Qed.

(** X24. After [Network.train] with an output path, the checkpoint is the
    model of the first epoch that reached the highest accuracy of the run,
    [highest_accuracy] is that accuracy and it is positive; nothing is saved
    exactly when no epoch in [1 .. EPOCHS - 1] had a positive accuracy. *)
Theorem Network_train_checkpoint (EPOCHS : nat) :
  match last (Network_train test_accuracy EPOCHS true).2 with
  | None =>
      Network_train test_accuracy EPOCHS true = (0%Q, []) ∧
      ∀ e, (1 ≤ e < EPOCHS)%nat → (test_accuracy e <= 0)%Q
  | Some e =>
      (1 ≤ e < EPOCHS)%nat ∧
      (Network_train test_accuracy EPOCHS true).1 = test_accuracy e ∧
      (0 < test_accuracy e)%Q ∧
      (∀ e', (1 ≤ e' < EPOCHS)%nat → (test_accuracy e' <= test_accuracy e)%Q) ∧
      (∀ e', (1 ≤ e' < e)%nat → (test_accuracy e' < test_accuracy e)%Q)
  end.
Proof.
  pose proof (checkpoint_inv_run (EPOCHS - 1)) as H.
  unfold Network_train, checkpoint_inv in *.
  destruct (last _) as [e|].
  - destruct H as (He & Hst & Hpos & Hmax & Hfirst).
    split; [lia|]. split; [done|]. split; [done|]. split; [|done].
    intros e' He'. apply Hmax. lia.
  - destruct H as (Hst & Hmax). split; [done|].
    intros e He. apply Hmax. lia.
Qed.

(** X25. Every save of [Network.train] happens at a later epoch and with
    a strictly higher accuracy than the save before it. *)
Theorem Network_train_saves_increase (EPOCHS : nat) (i j e1 e2 : nat) :
  (Network_train test_accuracy EPOCHS true).2 !! i = Some e1 →
  (Network_train test_accuracy EPOCHS true).2 !! j = Some e2 →
  (i < j)%nat →
  (e1 < e2)%nat ∧ (test_accuracy e1 < test_accuracy e2)%Q.
Proof.
  unfold Network_train. generalize (EPOCHS - 1)%nat. intros m. revert i j e1 e2.
  induction m as [|m IH]; intros i j e1 e2.
  - simpl. by rewrite lookup_nil.
  - rewrite seq_S, foldl_app. cbn [foldl].
    pose proof (checkpoint_inv_run m) as Hinv.
    set (st := foldl (Network_train_epoch test_accuracy true) (0%Q, []) (seq 1 m)) in *.
    unfold Network_train_epoch. replace (1 + m)%nat with (S m) by lia.
    destruct (Qltb st.1 (test_accuracy (S m))) eqn:Hlt; [|by apply IH].
    apply Qltb_lt in Hlt. cbn [snd]. intros Hi Hj Hij.
    destruct (decide (j < length st.2)%nat) as [Hjl|Hjl].
    + rewrite lookup_app_l in Hi, Hj by lia. by eapply IH.
    + assert (j = length st.2) as ->.
      { apply lookup_lt_Some in Hj. rewrite length_app in Hj. simpl in Hj. lia. }
      rewrite lookup_app_r, Nat.sub_diag in Hj by lia. injection Hj as <-.
      rewrite lookup_app_l in Hi by lia.
      unfold checkpoint_inv in Hinv.
      destruct (last st.2) as [e|] eqn:Hlast.
      * destruct Hinv as (He & Hst & Hpos & Hmax & Hfirst). rewrite Hst in Hlt.
        assert (He1 : (1 ≤ e1 ≤ m)%nat).
        { apply (saved_range m). by eapply list_elem_of_lookup_2. }
        split; [lia|]. eapply Qle_lt_trans; [by apply Hmax | done].
      * destruct Hinv as (Hst & _). rewrite Hst in Hi. cbn [snd] in Hi.
        by rewrite lookup_nil in Hi.
Qed.

Lemma Network_train_no_output_path (EPOCHS : nat) :
  Network_train test_accuracy EPOCHS false = (0%Q, []).
Proof.
  unfold Network_train. induction (seq 1 (EPOCHS - 1)) as [|e l IH]; done.
Qed.

End TrainingFacts.

(** ** The properties above on concrete inputs *)

Lemma pad_idempotent_witness :
  32%nat ≠ 0%nat ∧ tensor_wf t_2x3 ∧
  ∃ p, pad 0 t_2x3 32 = OK p ∧ pad 0 p 32 = OK p.
Proof.
  assert (H : tensor_wf t_2x3).
  { unfold tensor_wf, plane_wf, t_2x3. simpl. repeat constructor. }
  split; [lia|]. split; [exact H|].
  destruct (pad 0 t_2x3 32) as [p|e] eqn:Hp; [|discriminate Hp].
  exists p. split; [reflexivity|].
  exact (pad_idempotent 0 t_2x3 p 32 ltac:(lia) H Hp).
Defined.

Lemma unpad_shape_witness :
  tensor_wf t_2x3 ∧
  tensor_wf (unpad t_2x3 (1%nat, 5%nat)) ∧
  dim2 (unpad t_2x3 (1%nat, 5%nat)) = 1%nat ∧
  dim3 (unpad t_2x3 (1%nat, 5%nat)) = 3%nat.
Proof.
  assert (H : tensor_wf t_2x3).
  { unfold tensor_wf, plane_wf, t_2x3. simpl. repeat constructor. }
  split; [exact H|].
  destruct (unpad_shape t_2x3 (1%nat, 5%nat) H) as (Hwf & _ & _ & H2 & H3).
  exact (conj Hwf (conj H2 H3)).
Defined.

Lemma Cc_with_type_init_columns_witness :
  Cc_with_type_init hook "baseline" = OK d_hook ∧
  (cc_left d_hook).2 ∈ hook.2 ∧ (cc_right d_hook).2 ∈ hook.2 ∧
  (cc_left d_hook).2 ≤ (cc_right d_hook).2.
Proof.
  assert (H : Cc_with_type_init hook "baseline" = OK d_hook).
  { vm_compute. reflexivity. }
  split; [exact H|].
  destruct (Cc_with_type_init_columns hook "baseline" d_hook H)
    as (_ & _ & Hl & Hr & _ & Hle).
  exact (conj Hl (conj Hr Hle)).
Defined.

Lemma Cc_with_type_init_raises_witness :
  aligned hook ∧ hook.1 ≠ [] ∧ ∃ d, Cc_with_type_init hook "baseline" = OK d.
Proof.
  split; [reflexivity|]. split; [discriminate|].
  exact (proj2 (Cc_with_type_init_raises hook "baseline" eq_refl) ltac:(discriminate)).
Defined.

Lemma all_ccs_of_aligned_witness :
  Forall aligned [run_row0; speck; hook] ∧ Forall aligned [run_row1] ∧
  ∃ all_ccs,
    all_ccs_of [run_row0; speck; hook] [run_row1] = OK all_ccs ∧
    cc <$> all_ccs = [run_row0; hook; run_row1] ∧
    type <$> all_ccs = ["baseline"; "baseline"; "baseline_border"].
Proof.
  assert (H1 : Forall aligned [run_row0; speck; hook]) by (repeat constructor).
  assert (H2 : Forall aligned [run_row1]) by (repeat constructor).
  split; [exact H1|]. split; [exact H2|].
  exact (all_ccs_of_aligned [run_row0; speck; hook] [run_row1] H1 H2).
Defined.

Lemma left_right_exclusive_built_witness :
  Cc_with_type_init hook "baseline" = OK d_hook ∧
  Cc_with_type_init run_row0 "baseline" = OK d_run0 ∧
  left_of d_hook d_run0 = right_of d_run0 d_hook ∧
  ¬ (left_of d_hook d_run0 = true ∧ right_of d_hook d_run0 = true).
Proof.
  assert (H1 : Cc_with_type_init hook "baseline" = OK d_hook).
  { vm_compute. reflexivity. }
  assert (H2 : Cc_with_type_init run_row0 "baseline" = OK d_run0).
  { vm_compute. reflexivity. }
  split; [exact H1|]. split; [exact H2|].
  exact (left_right_exclusive_built hook run_row0 "baseline" "baseline"
           d_hook d_run0 H1 H2).
Defined.

Lemma entry_zero_iff_diagonal_witness :
  [d_run0; d_hook] !! 1%nat = Some d_hook ∧ [d_run0; d_hook] !! 0%nat = Some d_run0 ∧
  ∃ v, entry (calculate_distance_matrix [d_run0; d_hook] 50) 1 0 = Some v ∧
       0 ≤ v ∧ (v = 0 ↔ 1%nat = 0%nat).
Proof.
  split; [reflexivity|]. split; [reflexivity|].
  exact (entry_zero_iff_diagonal [d_run0; d_hook] 1 0 d_hook d_run0 eq_refl eq_refl).
Defined.

Lemma different_types_beyond_eps_witness :
  [d_run0; d_border1] !! 0%nat = Some d_run0 ∧
  [d_run0; d_border1] !! 1%nat = Some d_border1 ∧
  0%nat ≠ 1%nat ∧ type d_run0 ≠ type d_border1 ∧
  ∃ v, entry (calculate_distance_matrix [d_run0; d_border1] 50) 0 1 = Some v ∧
       v = 100 * raw_distance 50 d_run0 d_border1 ∧ 50 < v.
Proof.
  assert (Hty : type d_run0 ≠ type d_border1) by discriminate.
  split; [reflexivity|]. split; [reflexivity|]. split; [lia|]. split; [exact Hty|].
  exact (different_types_beyond_eps [d_run0; d_border1] 0 1 d_run0 d_border1
           eq_refl eq_refl ltac:(lia) Hty).
Defined.

Lemma within_eps_inv_witness :
  [d_run0; d_run2] !! 1%nat = Some d_run2 ∧ [d_run0; d_run2] !! 0%nat = Some d_run0 ∧
  1%nat ≠ 0%nat ∧
  entry (calculate_distance_matrix [d_run0; d_run2] 50) 1 0 = Some 2 ∧ 2 ≤ 50 ∧
  type d_run2 = type d_run0.
Proof.
  assert (He : entry (calculate_distance_matrix [d_run0; d_run2] 50) 1 0 = Some 2).
  { vm_compute. reflexivity. }
  split; [reflexivity|]. split; [reflexivity|]. split; [lia|]. split; [exact He|].
  split; [lia|].
  exact (proj1 (within_eps_inv [d_run0; d_run2] 1 0 d_run2 d_run0 2
                  eq_refl eq_refl ltac:(lia) He ltac:(lia))).
Defined.

Lemma mirrored_entry_le_witness :
  [d_run0; d_hook] !! 1%nat = Some d_hook ∧ [d_run0; d_hook] !! 0%nat = Some d_run0 ∧
  1%nat ≠ 0%nat ∧ spans_ordered d_hook ∧ spans_ordered d_run0 ∧
  left_of d_hook d_run0 = true ∧
  ∃ v w, entry (calculate_distance_matrix [d_run0; d_hook] 50) 1 0 = Some v ∧
         entry (calculate_distance_matrix [d_run0; d_hook] 50) 0 1 = Some w ∧
         w ≤ v ∧
         (v = w ∨
          v = w + 5 * Z.abs ((cc_left d_hook).1 - (cc_right d_run0).1)
                  * same_type d_hook d_run0).
Proof.
  assert (H0 : spans_ordered d_hook) by (unfold spans_ordered; simpl; lia).
  assert (H1 : spans_ordered d_run0) by (unfold spans_ordered; simpl; lia).
  do 3 (split; [first [reflexivity | lia]|]).
  split; [exact H0|]. split; [exact H1|]. split; [reflexivity|].
  exact (mirrored_entry_le [d_run0; d_hook] 1 0 d_hook d_run0
           eq_refl eq_refl ltac:(lia) H0 H1 eq_refl).
Defined.

Lemma group_by_label_witness :
  length labels_ex = length [d_run0; d_hook; d_border1] ∧
  mapM (collect [d_run0; d_hook; d_border1] labels_ex) (np_unique labels_ex)
  = OK (merge_components
          <$> (members [d_run0; d_hook; d_border1] labels_ex <$> np_unique labels_ex)) ∧
  members [d_run0; d_hook; d_border1] labels_ex <$> np_unique labels_ex
  = [[d_run0; d_border1]; [d_hook]].
Proof.
  split; [reflexivity|].
  split; [|vm_compute; reflexivity].
  exact (proj1 (proj2 (group_by_label [d_run0; d_hook; d_border1] labels_ex eq_refl))).
Defined.

Lemma normalize_Permutation_witness :
  cluster_ex ≡ₚ reverse cluster_ex ∧
  normalize_cc cluster_ex = normalize_cc (reverse cluster_ex).
Proof.
  assert (H : cluster_ex ≡ₚ reverse cluster_ex).
  { symmetry. apply reverse_Permutation. }
  split; [exact H|]. exact (normalize_Permutation _ _ H).
Defined.

Lemma normalize_thin_curve_witness :
  NoDup thin_curve.*2 ∧
  normalize_cc thin_curve ≡ₚ thin_curve ∧
  StronglySorted Z.lt (normalize_cc thin_curve).*2.
Proof.
  assert (H : NoDup thin_curve.*2).
  { apply (bool_decide_unpack (NoDup thin_curve.*2)). vm_compute. exact I. }
  split; [exact H|]. exact (normalize_thin_curve thin_curve H).
Defined.

Example Network_train_accuracy_ex :
  Network_train accuracy_ex 6 true = (inject_Z 2, [1; 2]%nat).
Proof. vm_compute. reflexivity. Qed.

Lemma Network_train_saves_increase_witness :
  (Network_train accuracy_ex 6 true).2 !! 0%nat = Some 1%nat ∧
  (Network_train accuracy_ex 6 true).2 !! 1%nat = Some 2%nat ∧
  (0 < 1)%nat ∧
  (1 < 2)%nat ∧ (accuracy_ex 1 < accuracy_ex 2)%Q.
Proof.
  split; [reflexivity|]. split; [reflexivity|]. split; [lia|].
  exact (Network_train_saves_increase accuracy_ex 6 0 1 1 2 eq_refl eq_refl ltac:(lia)).
Defined.
